(** * Sudo audit logger: a shallow embedding of [sudo-logger.js]

    The model follows the script function by function.  Buffers are lists of
    bytes ([ascii]); a JavaScript string is represented by the bytes of its
    UTF-8 encoding (a Rocq [string]), so [Buffer.from(text, 'utf8')] and
    [buf.toString('utf8')] are the conversions between [string] and
    [list ascii].  The primitives of Node's [crypto] module used by the
    script (PBKDF2-HMAC-SHA256 and AES-256-GCM) are modelled after their
    standards and checked against published test vectors below. *)

From Stdlib Require Import Arith NArith ZArith Ascii String List Bool Lia.
From Stdlib Require Import DecimalString.
Import ListNotations.
Local Open Scope N_scope.

Definition Buffer := list ascii.

Definition byte_val (c : ascii) : N := N_of_ascii c.
Definition byte_of (n : N) : ascii := ascii_of_N (n mod 256).

(** Big-endian serialisation of [n] on [len] bytes. *)
Definition be_bytes (len : nat) (n : N) : Buffer :=
  map (fun i => byte_of (N.shiftr n (8 * N.of_nat (len - 1 - i)))) (seq 0 len).

Definition be_value (b : Buffer) : N :=
  fold_left (fun acc c => acc * 256 + byte_val c) b 0.

(** [b] cut into pieces of [n] bytes, the last one possibly shorter. *)
Fixpoint chunks (fuel n : nat) (b : Buffer) : list Buffer :=
  match fuel, b with
  | _, [] => []
  | O, _ => []
  | S f, _ => firstn n b :: chunks f n (skipn n b)
  end.

(** Hexadecimal text of a buffer and back, to state test vectors. *)
Definition hex_char (n : N) : ascii :=
  if n <? 10 then ascii_of_N (48 + n) else ascii_of_N (87 + n).

Definition hex (b : Buffer) : string :=
  string_of_list_ascii
    (concat (map (fun c => [hex_char (byte_val c / 16); hex_char (byte_val c mod 16)]) b)).

Definition unhex_char (c : ascii) : N :=
  let n := N_of_ascii c in if n <? 58 then n - 48 else n - 87.

Fixpoint unhex (s : string) : Buffer :=
  match s with
  | String a (String b r) => byte_of (unhex_char a * 16 + unhex_char b) :: unhex r
  | _ => []
  end.

(** * SHA-256 (FIPS 180-4), the digest of [pbkdf2Async(..., 'sha256')] *)

Module SHA256.

Definition is_prime (n : N) : bool :=
  (2 <=? n) && forallb (fun d => negb (n mod d =? 0)) (map N.of_nat (seq 2 (N.to_nat n - 2))).

Definition primes : list N :=
  Eval vm_compute in firstn 64 (filter is_prime (map N.of_nat (seq 2 320))).

(** Largest [r] below [2^bits] with [r^3 <= n]. *)
Fixpoint cube_root (bits : nat) (n r : N) : N :=
  match bits with
  | O => r
  | S b => let r' := r + 2 ^ N.of_nat b in
           cube_root b n (if r' * r' * r' <=? n then r' else r)
  end.

(** The round constants and the initial hash value: the first 32 bits of the
    fractional parts of the cube roots of the first 64 primes, and of the
    square roots of the first 8. *)
Definition K : list N :=
  Eval vm_compute in map (fun p => cube_root 40 (p * 2 ^ 96) 0 mod 2 ^ 32) primes.

Definition H0 : list N :=
  Eval vm_compute in map (fun p => N.sqrt (p * 2 ^ 64) mod 2 ^ 32) (firstn 8 primes).

Definition mask32 : N := 2 ^ 32 - 1.
Definition add32 (a b : N) : N := (a + b) mod 2 ^ 32.
Definition rotr (n x : N) : N := N.lor (N.shiftr x n) (N.land (N.shiftl x (32 - n)) mask32).
Definition Ch (x y z : N) : N := N.lxor (N.land x y) (N.land (N.lxor x mask32) z).
Definition Maj (x y z : N) : N := N.lxor (N.lxor (N.land x y) (N.land x z)) (N.land y z).
Definition Sigma0 x := N.lxor (N.lxor (rotr 2 x) (rotr 13 x)) (rotr 22 x).
Definition Sigma1 x := N.lxor (N.lxor (rotr 6 x) (rotr 11 x)) (rotr 25 x).
Definition sigma0 x := N.lxor (N.lxor (rotr 7 x) (rotr 18 x)) (N.shiftr x 3).
Definition sigma1 x := N.lxor (N.lxor (rotr 17 x) (rotr 19 x)) (N.shiftr x 10).

Definition pad (msg : Buffer) : Buffer :=
  let l := N.of_nat (length msg) in
  let z := (64 - (l + 9) mod 64) mod 64 in
  msg ++ byte_of 128 :: repeat zero (N.to_nat z) ++ be_bytes 8 (8 * l).

Fixpoint schedule (n : nat) (w : list N) : list N :=
  match n with
  | O => w
  | S n' =>
      let t := length w in
      let x := add32 (add32 (sigma1 (nth (t - 2) w 0)) (nth (t - 7) w 0))
                     (add32 (sigma0 (nth (t - 15) w 0)) (nth (t - 16) w 0)) in
      schedule n' (w ++ [x])
  end.

Definition round (s : list N) (kw : N * N) : list N :=
  match s with
  | [a; b; c; d; e; f; g; h] =>
      let t1 := add32 (add32 (add32 h (Sigma1 e)) (add32 (Ch e f g) (fst kw))) (snd kw) in
      let t2 := add32 (Sigma0 a) (Maj a b c) in
      [add32 t1 t2; a; b; c; add32 d t1; e; f; g]
  | _ => s
  end.

Definition compress (h : list N) (block : Buffer) : list N :=
  let w := schedule 48 (map be_value (chunks 16 4 block)) in
  map (fun p => add32 (fst p) (snd p)) (combine h (fold_left round (combine K w) h)).

Definition digest (msg : Buffer) : Buffer :=
  let p := pad msg in
  concat (map (be_bytes 4) (fold_left compress (chunks (length p) 64 p) H0)).

End SHA256.


Definition xor_byte (a b : ascii) : ascii :=
  match a, b with
  | Ascii a0 a1 a2 a3 a4 a5 a6 a7, Ascii b0 b1 b2 b3 b4 b5 b6 b7 =>
      Ascii (xorb a0 b0) (xorb a1 b1) (xorb a2 b2) (xorb a3 b3)
            (xorb a4 b4) (xorb a5 b5) (xorb a6 b6) (xorb a7 b7)
  end.

Fixpoint xor_buffers (a b : Buffer) : Buffer :=
  match a, b with
  | x :: a', y :: b' => xor_byte x y :: xor_buffers a' b'
  | _, _ => []
  end.

(** * HMAC-SHA256 (RFC 2104) *)

Module HMAC.

Definition block_size : nat := 64.

(** RFC 2104: a key longer than the block is hashed, and the result is padded with zero bytes up to the block size. *)
Definition block_key (key : Buffer) : Buffer :=
  let k := if (block_size <? length key)%nat then SHA256.digest key else key in
  k ++ repeat zero (block_size - length k).

Definition hmac_sha256 (key msg : Buffer) : Buffer :=
  let k0 := block_key key in
  let ipad := map (xor_byte (byte_of 54)) k0 in
  let opad := map (xor_byte (byte_of 92)) k0 in
  SHA256.digest (opad ++ SHA256.digest (ipad ++ msg)).

End HMAC.

(** * PBKDF2 (RFC 8018), Node's [crypto.pbkdf2] *)

Module PBKDF2.

(** RFC 8018, 5.2: F(P, S, c, i) = U_1 xor ... xor U_c. *)
Definition F (password salt : Buffer) (c : N) (i : N) : Buffer :=
  let u1 := HMAC.hmac_sha256 password (salt ++ be_bytes 4 i) in
  snd (N.iter (c - 1)
         (fun st : Buffer * Buffer =>
            let u := HMAC.hmac_sha256 password (fst st) in (u, xor_buffers (snd st) u))
         (u1, u1)).

Definition pbkdf2 (password salt : Buffer) (iterations : N) (keylen : nat) : Buffer :=
  firstn keylen
    (concat (map (fun i => F password salt iterations (N.of_nat i)) (seq 1 ((keylen + 31) / 32)))).

End PBKDF2.

(** * AES-256 (FIPS 197) *)

Module AES.

(** Multiplication in GF(2^8) modulo x^8 + x^4 + x^3 + x + 1 (FIPS 197, 4.2). *)
Definition xtime (a : N) : N :=
  let d := a * 2 in if 256 <=? d then N.lxor d 283 else d.

Fixpoint gmul_fuel (n : nat) (a b acc : N) : N :=
  match n with
  | O => acc
  | S n' => gmul_fuel n' (xtime a) (b / 2) (if N.odd b then N.lxor acc a else acc)
  end.
Definition gmul (a b : N) : N := gmul_fuel 8 a b 0.

Fixpoint gpow (n : nat) (a : N) : N :=
  match n with O => 1 | S n' => gmul a (gpow n' a) end.

Definition rotl8 (k x : N) : N := (N.lor (N.shiftl x k) (N.shiftr x (8 - k))) mod 256.

(** The S-box: multiplicative inverse followed by the affine transformation (FIPS 197, 5.1.1). *)
Definition sbox_value (a : N) : N :=
  let b := gpow 254 a in
  N.lxor (N.lxor (N.lxor b (rotl8 1 b)) (N.lxor (rotl8 2 b) (rotl8 3 b))) (N.lxor (rotl8 4 b) 99).

Definition sbox_table : list N :=
  Eval vm_compute in map (fun i => sbox_value (N.of_nat i)) (seq 0 256).

Definition sbox (a : N) : N := nth (N.to_nat a) sbox_table 0.

Definition sub_word (w : N) : N :=
  be_value (map (fun c => byte_of (sbox (byte_val c))) (be_bytes 4 w)).
Definition rot_word (w : N) : N := (w mod 2 ^ 24) * 256 + w / 2 ^ 24.
Definition rcon (i : nat) : N := gpow (i - 1) 2 * 2 ^ 24.

(** Key expansion for a 256-bit key: Nk = 8, Nr = 14, 60 words (FIPS 197, 5.2). *)
Fixpoint expand (n : nat) (w : list N) : list N :=
  match n with
  | O => w
  | S n' =>
      let i := length w in
      let prev := nth (i - 1) w 0 in
      let t := if (i mod 8 =? 0)%nat then N.lxor (sub_word (rot_word prev)) (rcon (i / 8)%nat)
               else if (i mod 8 =? 4)%nat then sub_word prev
               else prev in
      expand n' (w ++ [N.lxor (nth (i - 8) w 0) t])
  end.

Definition key_schedule (key : Buffer) : list N :=
  expand 52 (map (fun i : nat => be_value (firstn 4 (skipn (4 * i) key))) (seq 0 8)).

(** The state is kept as the 16 input bytes in order: byte [r + 4c] is row r of column c. *)
Definition add_round_key (ks : list N) (rnd : nat) (st : list N) : list N :=
  map (fun i : nat =>
         N.lxor (nth i st 0)
                (byte_val (nth (i mod 4)%nat (be_bytes 4 (nth (4 * rnd + i / 4)%nat ks 0)) zero)))
      (seq 0 16).
Definition sub_bytes (st : list N) : list N := map sbox st.
Definition shift_rows (st : list N) : list N :=
  map (fun i : nat => nth (i mod 4 + 4 * ((i / 4 + i mod 4) mod 4))%nat st 0) (seq 0 16).
Definition mix_columns (st : list N) : list N :=
  map (fun i : nat =>
         let a := fun r : nat => nth (4 * (i / 4) + (i mod 4 + r) mod 4)%nat st 0 in
         N.lxor (N.lxor (gmul 2 (a 0%nat)) (gmul 3 (a 1%nat))) (N.lxor (a 2%nat) (a 3%nat)))
      (seq 0 16).

Definition encrypt_block (ks : list N) (block : N) : N :=
  let st0 := add_round_key ks 0 (map byte_val (be_bytes 16 block)) in
  let st13 := fold_left (fun st r => add_round_key ks r (mix_columns (shift_rows (sub_bytes st))))
                        (seq 1 13) st0 in
  be_value (map byte_of (add_round_key ks 14 (shift_rows (sub_bytes st13)))).

End AES.

Fixpoint buffer_eqb (a b : Buffer) : bool :=
  match a, b with
  | [], [] => true
  | x :: a', y :: b' => Ascii.eqb x y && buffer_eqb a' b'
  | _, _ => false
  end.

(** * Galois/Counter mode (NIST SP 800-38D) *)

Module GCM.

Definition R : N := 225 * 2 ^ 120.

(** Multiplication in GF(2^128), blocks read most significant bit first (SP 800-38D, 6.3). *)
Fixpoint mul_fuel (n : nat) (x v z : N) : N :=
  match n with
  | O => z
  | S n' =>
      mul_fuel n' x
        (if N.odd v then N.lxor (N.shiftr v 1) R else N.shiftr v 1)
        (if N.testbit x (N.of_nat n') then N.lxor z v else z)
  end.
Definition mul (x y : N) : N := mul_fuel 128 x y 0.

(** A buffer cut into 128-bit blocks, the last one padded with zero bytes. *)
Definition blocks (b : Buffer) : list N :=
  map (fun c => be_value (c ++ repeat zero (16 - length c))) (chunks (length b) 16 b).

Definition ghash (h : N) (xs : list N) : N :=
  fold_left (fun y x => mul (N.lxor y x) h) xs 0.

Definition bit_length (b : Buffer) : N := 8 * N.of_nat (length b).

Definition inc32 (cb : N) : N := (cb / 2 ^ 32) * 2 ^ 32 + (cb + 1) mod 2 ^ 32.

(** The pre-counter block J0 (SP 800-38D, 7.1 step 2). *)
Definition j0 (h : N) (iv : Buffer) : N :=
  if (length iv =? 12)%nat then be_value iv * 2 ^ 32 + 1
  else ghash h (blocks iv ++ [bit_length iv]).

(** GCTR: byte [j] of the key stream block of counter [cb] is xored on the data. *)
Fixpoint ctr (E : N -> N) (cb : N) (j : nat) (data : Buffer) : Buffer :=
  match data with
  | [] => []
  | d :: rest =>
      let cb' := if (j =? 16)%nat then inc32 cb else cb in
      let j' := if (j =? 16)%nat then O else j in
      xor_byte d (nth j' (be_bytes 16 (E cb')) zero) :: ctr E cb' (S j') rest
  end.

Definition tag (E : N -> N) (iv aad ct : Buffer) : Buffer :=
  let h := E 0 in
  be_bytes 16 (N.lxor (E (j0 h iv))
                 (ghash h (blocks aad ++ blocks ct ++ [bit_length aad * 2 ^ 64 + bit_length ct]))).

Definition crypt (E : N -> N) (iv data : Buffer) : Buffer :=
  ctr E (inc32 (j0 (E 0) iv)) 0 data.

End GCM.

(** * Base64, as [buf.toString('base64')] and [Buffer.from(text, 'base64')] *)

Module Base64.

Definition alphabet : list ascii :=
  list_ascii_of_string "ABCDEFGHIJKLMNOPQRSTUVWXYZabcdefghijklmnopqrstuvwxyz0123456789+/".

Definition digit (v : N) : ascii := nth (N.to_nat v) alphabet "="%char.

(** The value of a character of the standard or of the URL-safe alphabet. *)
Definition unbase64 (c : ascii) : option N :=
  let n := N_of_ascii c in
  if (65 <=? n) && (n <=? 90) then Some (n - 65)
  else if (97 <=? n) && (n <=? 122) then Some (n - 71)
  else if (48 <=? n) && (n <=? 57) then Some (n + 4)
  else if (n =? 43) || (n =? 45) then Some 62
  else if (n =? 47) || (n =? 95) then Some 63
  else None.

Fixpoint encode_bytes (b : Buffer) : list ascii :=
  match b with
  | x :: y :: z :: r =>
      let n := byte_val x * 65536 + byte_val y * 256 + byte_val z in
      digit (n / 262144) :: digit (n / 4096 mod 64) :: digit (n / 64 mod 64) :: digit (n mod 64)
        :: encode_bytes r
  | [x; y] =>
      let n := byte_val x * 1024 + byte_val y * 4 in
      [digit (n / 4096); digit (n / 64 mod 64); digit (n mod 64); "="%char]
  | [x] =>
      let n := byte_val x * 16 in
      [digit (n / 64); digit (n mod 64); "="%char; "="%char]
  | [] => []
  end.

Definition encode (b : Buffer) : string := string_of_list_ascii (encode_bytes b).

(** Node's decoder is forgiving: characters outside the alphabet are skipped
    and decoding stops at the first padding character. *)
Fixpoint sextets (s : list ascii) : list N :=
  match s with
  | [] => []
  | c :: r =>
      if Ascii.eqb c "="%char then []
      else match unbase64 c with
           | Some v => v :: sextets r
           | None => sextets r
           end
  end.

Fixpoint decode_groups (l : list N) : Buffer :=
  match l with
  | a :: b :: c :: d :: r =>
      let n := a * 262144 + b * 4096 + c * 64 + d in
      byte_of (n / 65536) :: byte_of (n / 256) :: byte_of n :: decode_groups r
  | [a; b; c] =>
      let n := a * 4096 + b * 64 + c in [byte_of (n / 1024); byte_of (n / 4)]
  | [a; b] => [byte_of ((a * 64 + b) / 16)]
  | _ => []
  end.

Definition decode (s : string) : Buffer := decode_groups (sextets (list_ascii_of_string s)).

End Base64.

(** * The part of Node's [crypto] API the script calls *)

Module NodeCrypto.

(** [randomBytes(n)]: the next [n] bytes of the entropy source [src] from position [pos]. *)
Definition randomBytes (src : nat -> ascii) (pos n : nat) : Buffer := map src (seq pos n).

(** [pbkdf2(password, salt, iterations, keylen, 'sha256')]: the password is
    a string, taken by its UTF-8 bytes. *)
Definition pbkdf2_sha256 (password : string) (salt : Buffer) (iterations : N) (keylen : nat) : Buffer :=
  PBKDF2.pbkdf2 (list_ascii_of_string password) salt iterations keylen.

(** AES under [key], which the script always derives with 32 bytes. *)
Definition block_cipher (key : Buffer) : N -> N := AES.encrypt_block (AES.key_schedule key).

(** The full tag of GCM over [data] under [key] and [iv]. *)
Definition auth_tag (key iv data : Buffer) : Buffer := GCM.tag (block_cipher key) iv [] data.

(** [createCipheriv('aes-256-gcm', key, iv)], [update] and [final], then [getAuthTag()]:
    the ciphertext and the 16-byte tag (no additional authenticated data is set). *)
Definition cipher_aes_256_gcm (key iv data : Buffer) : Buffer * Buffer :=
  let ct := GCM.crypt (block_cipher key) iv data in
  (ct, auth_tag key iv ct).

(** The tag lengths [setAuthTag] accepts for GCM. *)
Definition valid_tag_length (n : nat) : bool :=
  existsb (Nat.eqb n) [4; 8; 12; 13; 14; 15; 16]%nat.

(** [createDecipheriv('aes-256-gcm', key, iv)], [setAuthTag(tag)], [update] and
    [final]: [None] when one of the calls throws, that is on an empty iv, on a
    tag of invalid length, or when the tag does not authenticate the data. *)
Definition decipher_aes_256_gcm (key iv authTag data : Buffer) : option Buffer :=
  match iv with
  | [] => None
  | _ :: _ =>
      if valid_tag_length (length authTag)
         && buffer_eqb (firstn (length authTag) (auth_tag key iv data)) authTag
      then Some (GCM.crypt (block_cipher key) iv data)
      else None
  end.

End NodeCrypto.

(** [buf.subarray(start, end)] *)
Definition subarray (b : Buffer) (first last : nat) : Buffer := firstn (last - first) (skipn first b).

(** * Configuration *)

Record Config := {
  REPO_PATH : string;
  LOG_FILE : string;
  ENCRYPTION_PASSWORD : string;
  GITHUB_REPO : string;
  GITHUB_USER : string;
  GITHUB_TOKEN : string
}.

(** * Codec *)

(** [pbkdf2Async(CONFIG.ENCRYPTION_PASSWORD, salt, 100000, 32, 'sha256')] *)
Definition derived_key (CONFIG : Config) (salt : Buffer) : Buffer :=
  NodeCrypto.pbkdf2_sha256 (ENCRYPTION_PASSWORD CONFIG) salt 100000 32.

(** [encrypt(text)], given the salt and the iv drawn from [randomBytes(16)]. *)
Definition encrypt_with (CONFIG : Config) (salt iv : Buffer) (text : string) : string :=
  let key := derived_key CONFIG salt in
  let (encrypted, authTag) := NodeCrypto.cipher_aes_256_gcm key iv (list_ascii_of_string text) in
  let result := salt ++ iv ++ authTag ++ encrypted in
  Base64.encode result.

(** [decrypt(encryptedText)]: [None] when the function throws. *)
Definition decrypt (CONFIG : Config) (encryptedText : string) : option string :=
  let buffer := Base64.decode encryptedText in
  let salt := subarray buffer 0 16 in
  let iv := subarray buffer 16 32 in
  let authTag := subarray buffer 32 48 in
  let encrypted := skipn 48 buffer in
  let key := derived_key CONFIG salt in
  match NodeCrypto.decipher_aes_256_gcm key iv authTag encrypted with
  | Some decrypted => Some (string_of_list_ascii decrypted)
  | None => None
  end.

(** * JavaScript string methods used by the script *)

Local Open Scope string_scope.

Definition startsWith (s searchString : string) : bool := String.prefix searchString s.

Fixpoint includes (s searchString : string) : bool :=
  String.prefix searchString s
  || match s with
     | EmptyString => false
     | String _ r => includes r searchString
     end.

(** [s.split(sep)] for a one-character separator. *)
Fixpoint split (sep : ascii) (s : string) : list string :=
  match s with
  | EmptyString => [EmptyString]
  | String c r =>
      if Ascii.eqb c sep then EmptyString :: split sep r
      else match split sep r with
           | h :: t => String c h :: t
           | [] => [String c EmptyString]
           end
  end.

(** [s.toLowerCase()].  Only the ASCII letters are mapped: no character
    outside ASCII lower-cases to one of the letters the script compares with. *)
Definition lower_char (c : ascii) : ascii :=
  let n := N_of_ascii c in
  if (65 <=? n)%N && (n <=? 90)%N then ascii_of_N (n + 32) else c.

Fixpoint toLowerCase (s : string) : string :=
  match s with
  | EmptyString => EmptyString
  | String c r => String (lower_char c) (toLowerCase r)
  end.

(** The decimal text of an integer, as a template literal prints a count. *)
Definition number_to_string (n : Z) : string := DecimalString.NilZero.string_of_int (Z.to_int n).

Definition is_hex_lower (c : ascii) : bool :=
  let n := N_of_ascii c in
  ((48 <=? n)%N && (n <=? 57)%N) || ((97 <=? n)%N && (n <=? 102)%N).

Fixpoint all_chars (p : ascii -> bool) (s : string) : bool :=
  match s with
  | EmptyString => true
  | String c r => p c && all_chars p r
  end.

(** [s.match(/commit ([a-f0-9]{7})/)]: the group captured by the leftmost match. *)
Fixpoint match_commit (s : string) : option string :=
  match s with
  | EmptyString => None
  | String _ r =>
      let g := substring 7 7 s in
      if String.prefix "commit " s && (String.length g =? 7)%nat && all_chars is_hex_lower g
      then Some g
      else match_commit r
  end.

(** * JSON: [JSON.stringify] and [JSON.parse] *)

Module JSON.

(** A number keeps its literal: the script never computes with a parsed number. *)
#[local] Unset Elimination Schemes.
Inductive value :=
| Null
| Bool (b : bool)
| Number (literal : string)
| Str (s : string)
| Array (items : list value)
| Object (members : list (string * value)).
#[local] Set Elimination Schemes.

Definition dquote : ascii := "034"%char.
Definition backslash : ascii := "092"%char.

Definition hex_digit (n : N) : ascii :=
  if (n <? 10)%N then ascii_of_N (48 + n) else ascii_of_N (87 + n).

(** The escape of one character inside a string literal, as [JSON.stringify] writes it. *)
Definition escape_char (c : ascii) : string :=
  let n := N_of_ascii c in
  if Ascii.eqb c dquote then String backslash (String dquote "")
  else if Ascii.eqb c backslash then String backslash (String backslash "")
  else if (n =? 8)%N then "\b"
  else if (n =? 9)%N then "\t"
  else if (n =? 10)%N then "\n"
  else if (n =? 12)%N then "\f"
  else if (n =? 13)%N then "\r"
  else if (n <? 32)%N then "\u00" ++ String (hex_digit (n / 16)) (String (hex_digit (n mod 16)) "")
  else String c "".

Fixpoint escape (s : string) : string :=
  match s with
  | EmptyString => EmptyString
  | String c r => escape_char c ++ escape r
  end.

Definition quote (s : string) : string := String dquote (escape s ++ String dquote "").

Fixpoint stringify (v : value) : string :=
  match v with
  | Null => "null"
  | Bool true => "true"
  | Bool false => "false"
  | Number literal => literal
  | Str s => quote s
  | Array items => "[" ++ String.concat "," (map stringify items) ++ "]"
  | Object members =>
      "{" ++ String.concat "," (map (fun m => quote (fst m) ++ ":" ++ stringify (snd m)) members) ++ "}"
  end.

Definition is_ws (c : ascii) : bool :=
  let n := N_of_ascii c in (n =? 32)%N || (n =? 9)%N || (n =? 10)%N || (n =? 13)%N.

Fixpoint skip_ws (s : string) : string :=
  match s with
  | EmptyString => EmptyString
  | String c r => if is_ws c then skip_ws r else s
  end.

Definition hex_value (c : ascii) : option N :=
  let n := N_of_ascii c in
  if (48 <=? n)%N && (n <=? 57)%N then Some (n - 48)%N
  else if (97 <=? n)%N && (n <=? 102)%N then Some (n - 87)%N
  else if (65 <=? n)%N && (n <=? 70)%N then Some (n - 55)%N
  else None.

Definition hex4 (a b c d : ascii) : option N :=
  match hex_value a, hex_value b, hex_value c, hex_value d with
  | Some x, Some y, Some z, Some w => Some (x * 4096 + y * 256 + z * 16 + w)%N
  | _, _, _, _ => None
  end.

(** The UTF-8 bytes of a code point (a lone surrogate is written on three bytes). *)
Definition utf8 (cp : N) : string :=
  if (cp <? 128)%N then String (byte_of cp) ""
  else if (cp <? 2048)%N then
    String (byte_of (192 + cp / 64)) (String (byte_of (128 + cp mod 64)) "")
  else if (cp <? 65536)%N then
    String (byte_of (224 + cp / 4096))
      (String (byte_of (128 + cp / 64 mod 64)) (String (byte_of (128 + cp mod 64)) ""))
  else
    String (byte_of (240 + cp / 262144))
      (String (byte_of (128 + cp / 4096 mod 64))
         (String (byte_of (128 + cp / 64 mod 64)) (String (byte_of (128 + cp mod 64)) ""))).

Definition simple_escape (e : ascii) : option ascii :=
  let n := N_of_ascii e in
  if (n =? 34)%N then Some dquote
  else if (n =? 92)%N then Some backslash
  else if (n =? 47)%N then Some "/"%char
  else if (n =? 98)%N then Some "008"%char
  else if (n =? 102)%N then Some "012"%char
  else if (n =? 110)%N then Some "010"%char
  else if (n =? 114)%N then Some "013"%char
  else if (n =? 116)%N then Some "009"%char
  else None.

Definition is_high_surrogate (cu : N) : bool := (55296 <=? cu)%N && (cu <=? 56319)%N.
Definition is_low_surrogate (cu : N) : bool := (56320 <=? cu)%N && (cu <=? 57343)%N.

Definition prepend (chars : string) (r : option (string * string)) : option (string * string) :=
  match r with
  | Some (s, rest) => Some (chars ++ s, rest)
  | None => None
  end.

(** The characters of a string literal after its opening quote, and what
    follows the closing quote. *)
Fixpoint parse_chars (s : string) : option (string * string) :=
  match s with
  | EmptyString => None
  | String c r =>
      if Ascii.eqb c dquote then Some (EmptyString, r)
      else if Ascii.eqb c backslash then
        match r with
        | EmptyString => None
        | String e r1 =>
            if Ascii.eqb e "u"%char then
              match r1 with
              | String h1 (String h2 (String h3 (String h4 r2))) =>
                  match hex4 h1 h2 h3 h4 with
                  | None => None
                  | Some cu =>
                      if is_high_surrogate cu then
                        match r2 with
                        | String b (String u (String g1 (String g2 (String g3 (String g4 r3))))) =>
                            match hex4 g1 g2 g3 g4 with
                            | Some lo =>
                                if Ascii.eqb b backslash && Ascii.eqb u "u"%char && is_low_surrogate lo
                                then prepend (utf8 (65536 + (cu - 55296) * 1024 + (lo - 56320))%N)
                                             (parse_chars r3)
                                else prepend (utf8 cu) (parse_chars r2)
                            | None => prepend (utf8 cu) (parse_chars r2)
                            end
                        | _ => prepend (utf8 cu) (parse_chars r2)
                        end
                      else prepend (utf8 cu) (parse_chars r2)
                  end
              | _ => None
              end
            else match simple_escape e with
                 | Some ch => prepend (String ch "") (parse_chars r1)
                 | None => None
                 end
        end
      else if (N_of_ascii c <? 32)%N then None
      else prepend (String c "") (parse_chars r)
  end.

Definition is_digit (c : ascii) : bool := let n := N_of_ascii c in (48 <=? n)%N && (n <=? 57)%N.

Fixpoint span_digits (s : string) : string * string :=
  match s with
  | EmptyString => (EmptyString, EmptyString)
  | String c r =>
      if is_digit c then let (d, rest) := span_digits r in (String c d, rest)
      else (EmptyString, s)
  end.

(** A number literal: an optional minus sign, an integer part without a
    leading zero, an optional fraction and an optional exponent. *)
Definition parse_number (s : string) : option (string * string) :=
  let (sign, s1) := match s with
                    | String "-"%char r => ("-", r)
                    | _ => (EmptyString, s)
                    end in
  let int_part := match s1 with
                  | String "0"%char r => Some ("0", r)
                  | String c _ => if is_digit c then Some (span_digits s1) else None
                  | EmptyString => None
                  end in
  match int_part with
  | None => None
  | Some (i, s2) =>
      let frac_part := match s2 with
                       | String "."%char r =>
                           match span_digits r with
                           | (EmptyString, _) => None
                           | (d, rest) => Some (String "."%char d, rest)
                           end
                       | _ => Some (EmptyString, s2)
                       end in
      match frac_part with
      | None => None
      | Some (f, s3) =>
          let exp_part :=
            match s3 with
            | String e r =>
                if Ascii.eqb e "e"%char || Ascii.eqb e "E"%char then
                  let (sg, r') := match r with
                                  | String "+"%char r' => ("+", r')
                                  | String "-"%char r' => ("-", r')
                                  | _ => (EmptyString, r)
                                  end in
                  match span_digits r' with
                  | (EmptyString, _) => None
                  | (d, rest) => Some (String e (sg ++ d), rest)
                  end
                else Some (EmptyString, s3)
            | EmptyString => Some (EmptyString, s3)
            end in
          match exp_part with
          | None => None
          | Some (x, s4) => Some (sign ++ i ++ f ++ x, s4)
          end
      end
  end.

Fixpoint drop (n : nat) (s : string) : string :=
  match n, s with
  | S n', String _ r => drop n' r
  | _, _ => s
  end.

Definition expect (word : string) (v : value) (s : string) : option (value * string) :=
  if String.prefix word s then Some (v, drop (String.length word) s) else None.

(** Recursive descent; [fuel] bounds the number of nested or chained calls. *)
Fixpoint parse_value (fuel : nat) (s : string) : option (value * string) :=
  match fuel with
  | O => None
  | S fuel' =>
      match skip_ws s with
      | EmptyString => None
      | String c r =>
          if Ascii.eqb c "{"%char then
            match skip_ws r with
            | String "}"%char r' => Some (Object [], r')
            | _ => match parse_members fuel' r with
                   | Some (ms, r') => Some (Object ms, r')
                   | None => None
                   end
            end
          else if Ascii.eqb c "["%char then
            match skip_ws r with
            | String "]"%char r' => Some (Array [], r')
            | _ => match parse_elements fuel' r with
                   | Some (vs, r') => Some (Array vs, r')
                   | None => None
                   end
            end
          else if Ascii.eqb c dquote then
            match parse_chars r with
            | Some (str, r') => Some (Str str, r')
            | None => None
            end
          else if Ascii.eqb c "t"%char then expect "true" (Bool true) (String c r)
          else if Ascii.eqb c "f"%char then expect "false" (Bool false) (String c r)
          else if Ascii.eqb c "n"%char then expect "null" Null (String c r)
          else match parse_number (String c r) with
               | Some (literal, r') => Some (Number literal, r')
               | None => None
               end
      end
  end
with parse_members (fuel : nat) (s : string) : option (list (string * value) * string) :=
  match fuel with
  | O => None
  | S fuel' =>
      match skip_ws s with
      | String c r =>
          if Ascii.eqb c dquote then
            match parse_chars r with
            | Some (key, r1) =>
                match skip_ws r1 with
                | String ":"%char r2 =>
                    match parse_value fuel' r2 with
                    | Some (v, r3) =>
                        match skip_ws r3 with
                        | String ","%char r4 =>
                            match parse_members fuel' r4 with
                            | Some (ms, r5) => Some ((key, v) :: ms, r5)
                            | None => None
                            end
                        | String "}"%char r4 => Some ([(key, v)], r4)
                        | _ => None
                        end
                    | None => None
                    end
                | _ => None
                end
            | None => None
            end
          else None
      | EmptyString => None
      end
  end
with parse_elements (fuel : nat) (s : string) : option (list value * string) :=
  match fuel with
  | O => None
  | S fuel' =>
      match parse_value fuel' s with
      | Some (v, r1) =>
          match skip_ws r1 with
          | String ","%char r2 =>
              match parse_elements fuel' r2 with
              | Some (vs, r3) => Some (v :: vs, r3)
              | None => None
              end
          | String "]"%char r2 => Some ([v], r2)
          | _ => None
          end
      | None => None
      end
  end.

(** [JSON.parse(text)]: [None] when it throws a [SyntaxError]. *)
Definition parse (text : string) : option value :=
  match parse_value (S (String.length text)) text with
  | Some (v, rest) =>
      match skip_ws rest with
      | EmptyString => Some v
      | String _ _ => None
      end
  | None => None
  end.

(** [v[key]] for a parsed value: the last member of that name of an object,
    [None] (undefined) otherwise. *)
Definition get (v : value) (key : string) : option value :=
  match v with
  | Object members =>
      fold_left (fun found m => if String.eqb (fst m) key then Some (snd m) else found) members None
  | _ => None
  end.

End JSON.

(** * The world of one invocation *)

(** An element of the log document. *)
Record EncryptedRecord := { id : Z; encrypted : string }.

(** The content of [audit-log.json].  The persisted document is kept as the
    value [JSON.parse] reads from it: [Unparseable] stands for a file whose
    text [JSON.parse] rejects, [Document] for an array of records (the
    persisted log format; [JSON.stringify(logs, null, 2)] writes one).  A
    text that parses to something else than an array of records is outside
    this data model. *)
Inductive LogFile :=
| Absent
| Unparseable
| Document (logs : list EncryptedRecord).

(** An element of [log.all], as simple-git reports a commit. *)
Module Commit.
Record t := { hash : string; author_name : string; date : string; message : string }.
End Commit.

(** An element of [tamperedCommits]. *)
Module TamperInfo.
Record t := { hash : string; author : string; date : string; deletions : Z; message : string }.
End TamperInfo.

(** The plaintext of a log entry. *)
Record LogEntry := {
  timestamp : string;
  user : option string;
  hostname : string;
  command : string;
  exitCode : option Z;
  output : string;
  cwd : string
}.

Inductive Event :=
| Asked (command : string)
| Pulled (ok : bool)
| Saved (record : EncryptedRecord)
| ViewerCopied
| Pushed (ok : bool)
| Executed (args : list string).

(** What the process can observe and change: the files under [REPO_PATH]
    ([repo_dir] and [git_dir] tell whether the directory and its [.git]
    exist), how much of the entropy and of the clock it has consumed, and
    the events so far, oldest first.  The calls of [fs] are taken to
    succeed: the script does not handle their errors, and the model leaves
    out the runs in which a read or a write of a file throws. *)
Record World := {
  repo_dir : bool;
  git_dir : bool;
  log_file : LogFile;
  index_html : bool;
  nojekyll : bool;
  random_pos : nat;
  clock_pos : nat;
  trace : list Event
}.

(** What the outside answers: the command line and environment, the
    terminal, the entropy source, the clock, git and the spawned command.
    - [argv] is [process.argv.slice(2)];
    - [entropy] and [clock] give the bytes of [randomBytes] and the readings
      of [new Date()] in the order they are consumed;
    - [answer] is the line typed at the prompt;
    - [git_clone] is [None] when the clone throws, else the log file of the
      fresh working copy; [git_addConfig] tells whether the two
      [addConfig] calls succeed;
    - [git_pull] maps the log file of the working copy to the success of
      [git pull --rebase] and to the log file the command leaves;
    - [git_log] and [git_show] are [None] when the call throws;
    - [git_status] is [None] when the call throws, else whether no file has
      changed;
    - [sudo_exit] is the exit code of the spawned command, or the signal
      that ended it. *)
Record Env := {
  argv : list string;
  env_USER : option string;
  env_USERNAME : option string;
  os_hostname : string;
  process_cwd : string;
  entropy : nat -> ascii;
  clock : nat -> string;
  answer : string;
  html_source : bool;
  git_clone : option LogFile;
  git_addConfig : bool;
  git_pull : LogFile -> bool * LogFile;
  git_log : option (list Commit.t);
  git_show : string -> option string;
  git_add : bool;
  git_status : option bool;
  git_commit : bool;
  git_push : bool;
  sudo_exit : Z + string
}.

(** A step of the process either continues with a value, or the process has
    ended: [process.exit(code)], or [process.kill] with the child's signal,
    or an error was thrown that no [try] catches: the promise of [main] is
    then rejected, [main().catch(console.error)] prints the error and the
    process ends without an exit call. *)
Inductive Step (A : Type) :=
| Continue (a : A)
| Exit (code : Z)
| Killed (signal : string)
| Rejected (error : string).
Arguments Continue {A} a.
Arguments Exit {A} code.
Arguments Killed {A} signal.
Arguments Rejected {A} error.

Definition Proc (A : Type) : Type := World -> Step A * World.

Definition ret {A} (a : A) : Proc A := fun w => (Continue a, w).

Definition bind {A B} (m : Proc A) (k : A -> Proc B) : Proc B :=
  fun w =>
    match m w with
    | (Continue a, w') => k a w'
    | (Exit code, w') => (Exit code, w')
    | (Killed signal, w') => (Killed signal, w')
    | (Rejected error, w') => (Rejected error, w')
    end.

Definition process_exit {A} (code : Z) : Proc A := fun w => (Exit code, w).

(** [simpleGit(CONFIG.REPO_PATH)]: simple-git throws when the directory does
    not exist, and the script makes the call outside its [try] blocks. *)
Definition simpleGit : Proc unit :=
  fun w =>
    if repo_dir w then (Continue tt, w)
    else (Rejected "Cannot use simple-git on a directory that does not exist", w).

Definition emit (e : Event) : Proc unit :=
  fun w =>
    (Continue tt,
     {| repo_dir := repo_dir w; git_dir := git_dir w; log_file := log_file w;
        index_html := index_html w; nojekyll := nojekyll w;
        random_pos := random_pos w; clock_pos := clock_pos w;
        trace := trace w ++ [e] |}).

Definition set_log_file (f : LogFile) (w : World) : World :=
  {| repo_dir := repo_dir w; git_dir := git_dir w; log_file := f;
     index_html := index_html w; nojekyll := nojekyll w;
     random_pos := random_pos w; clock_pos := clock_pos w; trace := trace w |}.

Declare Scope proc_scope.
Delimit Scope proc_scope with proc.
Notation "x <- m ;; k" := (bind m (fun x => k))
  (at level 61, m at next level, right associativity) : proc_scope.
Notation "m ;;; k" := (bind m (fun _ => k))
  (at level 61, right associativity) : proc_scope.

(** [for (const x of xs) body(x)] *)
Fixpoint for_each {A} (xs : list A) (body : A -> Proc unit) : Proc unit :=
  match xs with
  | [] => ret tt
  | x :: rest => bind (body x) (fun _ => for_each rest body)
  end.

(** * The script *)

Section Script.

Variable CONFIG : Config.
Variable env : Env.

Local Open Scope proc_scope.

(** [new Date().toISOString()] *)
Definition now : Proc string :=
  fun w =>
    (Continue (clock env (clock_pos w)),
     {| repo_dir := repo_dir w; git_dir := git_dir w; log_file := log_file w;
        index_html := index_html w; nojekyll := nojekyll w;
        random_pos := random_pos w; clock_pos := S (clock_pos w); trace := trace w |}).

(** [randomBytes(n)] *)
Definition randomBytes (n : nat) : Proc Buffer :=
  fun w =>
    (Continue (NodeCrypto.randomBytes (entropy env) (random_pos w) n),
     {| repo_dir := repo_dir w; git_dir := git_dir w; log_file := log_file w;
        index_html := index_html w; nojekyll := nojekyll w;
        random_pos := (random_pos w + n)%nat; clock_pos := clock_pos w; trace := trace w |}).

Definition encrypt (text : string) : Proc string :=
  salt <- randomBytes 16 ;;
  iv <- randomBytes 16 ;;
  ret (encrypt_with CONFIG salt iv text).

(** [process.env.USER || process.env.USERNAME] *)
Definition current_user : option string :=
  match env_USER env with
  | Some u => if String.eqb u "" then env_USERNAME env else Some u
  | None => env_USERNAME env
  end.

(** The object [JSON.stringify] sees: a property that is [undefined] is left out. *)
Definition entry_value (entry : LogEntry) : JSON.value :=
  JSON.Object
    ([("timestamp", JSON.Str (timestamp entry))]
       ++ match user entry with
          | Some u => [("user", JSON.Str u)]
          | None => []
          end
       ++ [("hostname", JSON.Str (hostname entry));
           ("command", JSON.Str (command entry));
           ("exitCode", match exitCode entry with
                        | Some n => JSON.Number (number_to_string n)
                        | None => JSON.Null
                        end);
           ("output", JSON.Str (output entry));
           ("cwd", JSON.Str (cwd entry))]).

Definition createLogEntry (command : string) : Proc string :=
  t <- now ;;
  let entry := {| timestamp := t; user := current_user; hostname := os_hostname env;
                  command := command; exitCode := None; output := "";
                  cwd := process_cwd env |} in
  encrypt (JSON.stringify (entry_value entry)).

Definition saveToRepo (encryptedEntry : string) : Proc unit :=
  fun w =>
    let logs := match log_file w with
                | Document logs => logs
                | Absent | Unparseable => []
                end in
    let record := {| id := Z.of_nat (length logs) + 1; encrypted := encryptedEntry |} in
    (Continue tt,
     {| repo_dir := true; git_dir := git_dir w; log_file := Document (logs ++ [record]);
        index_html := index_html w; nojekyll := nojekyll w;
        random_pos := random_pos w; clock_pos := clock_pos w;
        trace := trace w ++ [Saved record] |}).

Definition copyHtmlViewer : Proc unit :=
  fun w =>
    (Continue tt,
     {| repo_dir := repo_dir w; git_dir := git_dir w; log_file := log_file w;
        index_html := if html_source env then true else index_html w; nojekyll := true;
        random_pos := random_pos w; clock_pos := clock_pos w;
        trace := trace w ++ [ViewerCopied] |}).

Definition cloned (f : LogFile) (w : World) : World :=
  {| repo_dir := true; git_dir := true; log_file := f;
     index_html := index_html w; nojekyll := nojekyll w;
     random_pos := random_pos w; clock_pos := clock_pos w; trace := trace w |}.

Definition pullFromGitHub : Proc bool :=
  _ <- simpleGit ;;
  fun w =>
    let (success, w') :=
      if negb (git_dir w) then
        match git_clone env with
        | Some f => (git_addConfig env, cloned f w)
        | None => (false, w)
        end
      else
        let (ok, f) := git_pull env (log_file w) in (ok, set_log_file f w)
    in (_ <- emit (Pulled success) ;; ret success) w'.

(** The inner loop of [checkForTampering]: the deletions and additions of a diff. *)
Definition count_line (counts : Z * Z) (line : string) : Z * Z :=
  let (deletions, additions) := counts in
  let deletions := if startsWith line "-" && negb (startsWith line "---")
                   then (deletions + 1)%Z else deletions in
  let additions := if startsWith line "+" && negb (startsWith line "+++")
                   then (additions + 1)%Z else additions in
  (deletions, additions).

Definition count_lines (diff : string) : Z * Z :=
  fold_left count_line (split "010"%char diff) (0%Z, 0%Z).

(** The body of the loop over [log.all], for a commit whose diff was retrieved. *)
Definition check_commit (tamperedCommits : list TamperInfo.t) (commit : Commit.t) (diff : string)
  : list TamperInfo.t :=
  let (deletions, additions) := count_lines diff in
  if (deletions >? additions + 2)%Z then
    tamperedCommits ++
      [{| TamperInfo.hash := Commit.hash commit;
          TamperInfo.author := Commit.author_name commit;
          TamperInfo.date := Commit.date commit;
          TamperInfo.deletions := (deletions - 2)%Z;
          TamperInfo.message := Commit.message commit |}]
  else tamperedCommits.

Definition checkForTampering : Proc (list TamperInfo.t) :=
  _ <- simpleGit ;;
  fun w =>
    if negb (git_dir w) then (Continue [], w)
    else match git_log env with
         | None => (Continue [], w)
         | Some all =>
             (Continue
                (fold_left
                   (fun tamperedCommits commit =>
                      match git_show env (Commit.hash commit) with
                      | Some diff => check_commit tamperedCommits commit diff
                      | None => tamperedCommits
                      end)
                   all []),
              w)
         end.

Definition logTamperingWarning (tamperInfo : TamperInfo.t) : Proc string :=
  t <- now ;;
  let deletions := number_to_string (TamperInfo.deletions tamperInfo) in
  let entry :=
    {| timestamp := t; user := current_user; hostname := os_hostname env;
       command := "[TAMPERING DETECTED] " ++ deletions ++ " log entries deleted in commit "
                    ++ substring 0 7 (TamperInfo.hash tamperInfo)
                    ++ " by " ++ TamperInfo.author tamperInfo;
       exitCode := Some (-1)%Z;
       output := "WARNING: Audit log tampering detected!" ++ String "010"%char
                   ("Commit: " ++ TamperInfo.hash tamperInfo) ++ String "010"%char
                   ("Author: " ++ TamperInfo.author tamperInfo) ++ String "010"%char
                   ("Date: " ++ TamperInfo.date tamperInfo) ++ String "010"%char
                   ("Message: " ++ TamperInfo.message tamperInfo) ++ String "010"%char
                   ("Deletions: " ++ deletions ++ " entries");
       cwd := process_cwd env |} in
  encrypt (JSON.stringify (entry_value entry)).

(** A [Set] of strings, in insertion order. *)
Definition Set_has (s : list string) (x : string) : bool := existsb (String.eqb x) s.
Definition Set_add (s : list string) (x : string) : list string :=
  if Set_has s x then s else s ++ [x].

(** The body of the loop of [getLoggedTamperCommits]: the hash a record
    reports, [None] when the record is skipped. *)
Definition logged_commit (log : EncryptedRecord) : option string :=
  match decrypt CONFIG (encrypted log) with
  | None => None
  | Some text =>
      match JSON.parse text with
      | None => None
      | Some decrypted =>
          match JSON.get decrypted "command" with
          | Some (JSON.Str command) =>
              if includes command "[TAMPERING DETECTED]" then match_commit command else None
          | _ => None
          end
      end
  end.

Definition getLoggedTamperCommits : Proc (list string) :=
  fun w =>
    match log_file w with
    | Absent | Unparseable => (Continue [], w)
    | Document logs =>
        (Continue
           (fold_left
              (fun commitHashes log =>
                 match logged_commit log with
                 | Some h => Set_add commitHashes h
                 | None => commitHashes
                 end)
              logs []),
         w)
    end.

Definition pushToGitHub : Proc bool :=
  _ <- simpleGit ;;
  let success :=
    git_add env
    && match git_status env with
       | Some true => true
       | Some false => git_commit env && git_push env
       | None => false
       end in
  _ <- emit (Pushed success) ;; ret success.

Definition confirmCommand (command : string) : Proc bool :=
  _ <- emit (Asked command) ;;
  ret (String.eqb (toLowerCase (answer env)) "y" || String.eqb (toLowerCase (answer env)) "yes").

Definition execSudo (args : list string) : Proc unit :=
  _ <- emit (Executed args) ;;
  fun w =>
    match sudo_exit env with
    | inl code => (Exit code, w)
    | inr signal => (Killed signal, w)
    end.

(** Steps 3 and 4 of [main]: the scan and the report of new tampering. *)
Definition report_tampering : Proc unit :=
  tamperedCommits <- checkForTampering ;;
  alreadyLogged <- getLoggedTamperCommits ;;
  if (0 <? length tamperedCommits)%nat then
    for_each tamperedCommits
      (fun tamperInfo =>
         let shortHash := substring 0 7 (TamperInfo.hash tamperInfo) in
         if negb (Set_has alreadyLogged shortHash) then
           warningEntry <- logTamperingWarning tamperInfo ;;
           saveToRepo warningEntry
         else ret tt)
  else ret tt.

Definition main : Proc unit :=
  let args := argv env in
  if (length args =? 0)%nat then process_exit 1
  else
    let command := String.concat " " args in
    confirmed <- confirmCommand command ;;
    if negb confirmed then process_exit 0
    else
      pullSuccess <- pullFromGitHub ;;
      if negb pullSuccess then process_exit 1
      else
        _ <- report_tampering ;;
        encryptedEntry <- createLogEntry command ;;
        _ <- saveToRepo encryptedEntry ;;
        _ <- copyHtmlViewer ;;
        pushSuccess <- pushToGitHub ;;
        if negb pushSuccess then process_exit 1
        else execSudo args.

End Script.

(** * Sample values, for the examples *)

Definition sample_config (password : string) : Config :=
  {| REPO_PATH := "/home/admin/.sudo-audit-logs"; LOG_FILE := "audit-log.json";
     ENCRYPTION_PASSWORD := password; GITHUB_REPO := "admin/audit";
     GITHUB_USER := "admin"; GITHUB_TOKEN := "ghp_token" |}.

(** What [decipher.final()] accepts, for a non-empty iv: a tag of a valid
    length that is the recomputed tag, cut to that length. *)
Definition authenticates (key iv authTag data : Buffer) : Prop :=
  NodeCrypto.valid_tag_length (length authTag) = true
  /\ firstn (length authTag) (NodeCrypto.auth_tag key iv data) = authTag.

(** * Quantities the properties speak of *)

(** The line feed, the separator of [diff.split]. *)
Definition LF : ascii := "010"%char.

(** The lines of a diff counted as deletions and as additions: those that
    start with the sign and are not the file header of the diff. *)
Definition counted_deletions (diff : string) : Z :=
  Z.of_nat (length (filter (fun line => startsWith line "-" && negb (startsWith line "---"))
                      (split LF diff))).

Definition counted_additions (diff : string) : Z :=
  Z.of_nat (length (filter (fun line => startsWith line "+" && negb (startsWith line "+++"))
                      (split LF diff))).

(** The record of a suspicious commit. *)
Definition tamper_record (commit : Commit.t) (deletionCount : Z) : TamperInfo.t :=
  {| TamperInfo.hash := Commit.hash commit;
     TamperInfo.author := Commit.author_name commit;
     TamperInfo.date := Commit.date commit;
     TamperInfo.deletions := deletionCount;
     TamperInfo.message := Commit.message commit |}.

(** What one commit of the history contributes to [tamperedCommits]. *)
Definition suspicious (env : Env) (commit : Commit.t) : list TamperInfo.t :=
  match git_show env (Commit.hash commit) with
  | Some diff =>
      if (counted_deletions diff >? counted_additions diff + 2)%Z
      then [tamper_record commit (counted_deletions diff - 2)]
      else []
  | None => []
  end.

(** The values of the members of a log entry: strings, [null] and [-1]. *)
Definition simple_value (v : JSON.value) : Prop :=
  match v with
  | JSON.Str _ | JSON.Null => True
  | JSON.Number literal => literal = "-1"
  | _ => False
  end.

(** The text of one member of an object. *)
Definition member_text (m : string * JSON.value) : string :=
  JSON.quote (fst m) ++ ":" ++ JSON.stringify (snd m).

(** A git object name, as [commit.hash] holds one: lower-case hexadecimal
    digits, at least the seven of the short hash. *)
Definition is_object_name (hash : string) : bool :=
  (7 <=? String.length hash)%nat && all_chars is_hex_lower hash.

(** [tamperInfo.hash.substring(0, 7)] *)
Definition short_hash (info : TamperInfo.t) : string := substring 0 7 (TamperInfo.hash info).

(** The records of the store: the parsed document, or none when the file
    is absent or unparseable. *)
Definition store_logs (f : LogFile) : list EncryptedRecord :=
  match f with
  | Document logs => logs
  | Absent | Unparseable => []
  end.

(** [w'] is [w] after the records [rs] were appended with [saveToRepo], and
    nothing else was written to the log file or to the trace. *)
Definition appended (w w' : World) (rs : list EncryptedRecord) : Prop :=
  trace w' = (trace w ++ map Saved rs)%list
  /\ (repo_dir w = true -> repo_dir w' = true)
  /\ git_dir w' = git_dir w
  /\ log_file w' = match rs with
                   | [] => log_file w
                   | _ :: _ => Document (store_logs (log_file w) ++ rs)
                   end.

(** The outcome of [pushToGitHub]. *)
Definition push_succeeds (env : Env) : bool :=
  git_add env
  && match git_status env with
     | Some true => true
     | Some false => git_commit env && git_push env
     | None => false
     end.

(** The outcome of [pullFromGitHub] in a world. *)
Definition pull_succeeds (env : Env) (w : World) : bool :=
  if git_dir w then fst (git_pull env (log_file w))
  else match git_clone env with
       | Some _ => git_addConfig env
       | None => false
       end.

(** The log file as the clone or the pull leaves it, failed or not. *)
Definition pulled_file (env : Env) (w : World) : LogFile :=
  if git_dir w then snd (git_pull env (log_file w))
  else match git_clone env with
       | Some f => f
       | None => log_file w
       end.

(** The answer is affirmative. *)
Definition affirmative (env : Env) : bool :=
  String.eqb (toLowerCase (answer env)) "y" || String.eqb (toLowerCase (answer env)) "yes".

(** One of the gates of [main] stops the invocation: no command given, the
    user declines, [pullFromGitHub] returns failure or [pushToGitHub]
    returns failure. *)
Definition early_abort (env : Env) (w : World) : bool :=
  match argv env with
  | [] => true
  | _ :: _ =>
      negb (affirmative env)
      || (repo_dir w && (negb (pull_succeeds env w) || negb (push_succeeds env)))
  end.

(** The pull step is reached while the repository directory is missing:
    [simpleGit] throws. *)
Definition pull_throws (env : Env) (w : World) : bool :=
  match argv env with
  | [] => false
  | _ :: _ => affirmative env && negb (repo_dir w)
  end.

(** The exit status of an early abort. *)
Definition abort_status (env : Env) : Z :=
  match argv env with
  | [] => 1
  | _ :: _ => if affirmative env then 1 else 0
  end.

(** How the spawned command ends the process. *)
Definition sudo_outcome (env : Env) : Step unit :=
  match sudo_exit env with
  | inl code => Exit code
  | inr signal => Killed signal
  end.

(** The events of the trace that run the privileged command. *)
Definition is_executed (e : Event) : bool :=
  match e with
  | Executed _ => true
  | _ => false
  end.

Definition is_saved (e : Event) : bool :=
  match e with
  | Saved _ => true
  | _ => false
  end.

(** The records with ids [first + 1], [first + 2], ... for the given blobs. *)
Fixpoint numbered (first : nat) (blobs : list string) : list EncryptedRecord :=
  match blobs with
  | [] => []
  | blob :: rest => {| id := Z.of_nat first + 1; encrypted := blob |} :: numbered (S first) rest
  end.

Definition lines (ls : list string) : string := String.concat (String LF "") ls.

Definition sample_commit : Commit.t :=
  {| Commit.hash := "3f2a9c1e5b7d480c9a6e2f1b0d4c8e7a5f3b1d9c"; Commit.author_name := "mallory";
     Commit.date := "2024-05-01T10:00:00+00:00"; Commit.message := "cleanup" |}.

(** A diff of the log file that removes four lines and adds none. *)
Definition sample_diff_0_4 : string :=
  lines ["commit 3f2a9c1e5b7d480c9a6e2f1b0d4c8e7a5f3b1d9c";
         "diff --git a/audit-log.json b/audit-log.json";
         "--- a/audit-log.json";
         "+++ b/audit-log.json";
         "@@ -2,8 +2,4 @@";
         "   {";
         "-    first";
         "-  },";
         "-  {";
         "-    second";
         "   }"].

(** A diff of the log file with three added and five removed lines. *)
Definition sample_diff_3_5 : string :=
  lines ["commit 3f2a9c1e5b7d480c9a6e2f1b0d4c8e7a5f3b1d9c";
         "diff --git a/audit-log.json b/audit-log.json";
         "--- a/audit-log.json";
         "+++ b/audit-log.json";
         "@@ -1,9 +1,7 @@";
         " [";
         "-  {";
         "-    first";
         "-  },";
         "-  {";
         "-    second";
         "+  {";
         "+    third";
         "+  }";
         " ]"].

Definition sample_world : World :=
  {| repo_dir := true; git_dir := true; log_file := Absent; index_html := false;
     nojekyll := false; random_pos := 0; clock_pos := 0; trace := [] |}.

Definition sample_env (line : string) (pull push : bool) : Env :=
  {| argv := ["apt"; "update"]; env_USER := Some "admin"; env_USERNAME := None;
     os_hostname := "host"; process_cwd := "/root";
     entropy := fun _ => zero; clock := fun _ => "2024-05-01T10:00:00.000Z";
     answer := line; html_source := true;
     git_clone := Some Absent; git_addConfig := true;
     git_pull := fun f => (pull, f);
     git_log := Some [sample_commit]; git_show := fun _ => Some sample_diff_0_4;
     git_add := true; git_status := Some false; git_commit := true; git_push := push;
     sudo_exit := inl 0%Z |}.

(** A character other than [c], the first letter the expression of
    [getLoggedTamperCommits] looks for. *)
Definition not_c (x : ascii) : bool := negb (Ascii.eqb x "c").

(** A string without its first character. *)
Definition drop_first (s : string) : string :=
  match s with
  | String _ r => r
  | EmptyString => EmptyString
  end.

(** The set [getLoggedTamperCommits] builds from the records [logs],
    starting from [acc]. *)
Definition logged_set (CONFIG : Config) (logs : list EncryptedRecord) (acc : list string)
  : list string :=
  fold_left
    (fun commitHashes log =>
       match logged_commit CONFIG log with
       | Some h => Set_add commitHashes h
       | None => commitHashes
       end) logs acc.

(** The commits the scan reports, in a world where the working copy exists. *)
Definition tampered (env : Env) (w : World) : list TamperInfo.t :=
  if git_dir w
  then match git_log env with
       | Some all => flat_map (suspicious env) all
       | None => []
       end
  else [].

(** The entry [createLogEntry] builds for [command] when the clock reads [t]. *)
Definition command_entry (env : Env) (t command : string) : LogEntry :=
  {| timestamp := t; user := current_user env; hostname := os_hostname env;
     command := command; exitCode := None; output := "";
     cwd := process_cwd env |}.

(** The entry [logTamperingWarning] builds for [tamperInfo] when the clock reads [t]. *)
Definition warning_entry (env : Env) (t : string) (tamperInfo : TamperInfo.t) : LogEntry :=
  let deletions := number_to_string (TamperInfo.deletions tamperInfo) in
  {| timestamp := t; user := current_user env; hostname := os_hostname env;
     command := "[TAMPERING DETECTED] " ++ deletions ++ " log entries deleted in commit "
                  ++ substring 0 7 (TamperInfo.hash tamperInfo)
                  ++ " by " ++ TamperInfo.author tamperInfo;
     exitCode := Some (-1)%Z;
     output := "WARNING: Audit log tampering detected!" ++ String "010"%char
                 ("Commit: " ++ TamperInfo.hash tamperInfo) ++ String "010"%char
                 ("Author: " ++ TamperInfo.author tamperInfo) ++ String "010"%char
                 ("Date: " ++ TamperInfo.date tamperInfo) ++ String "010"%char
                 ("Message: " ++ TamperInfo.message tamperInfo) ++ String "010"%char
                 ("Deletions: " ++ deletions ++ " entries");
     cwd := process_cwd env |}.

(** What a reader of the log does with a record: [JSON.parse(await decrypt(log.encrypted))]. *)
Definition read_record (CONFIG : Config) (log : EncryptedRecord) : option JSON.value :=
  match decrypt CONFIG (encrypted log) with
  | Some text => JSON.parse text
  | None => None
  end.

(** The ids of the records are their 1-based positions, counted from [first]. *)
Fixpoint numbered_from (first : nat) (logs : list EncryptedRecord) : bool :=
  match logs with
  | [] => true
  | r :: rest => (id r =? Z.of_nat first + 1)%Z && numbered_from (S first) rest
  end.

Definition well_numbered (f : LogFile) : bool := numbered_from 0 (store_logs f).

(** Every record of the store can be read back under the password of [CONFIG]. *)
Definition readable (CONFIG : Config) (f : LogFile) : Prop :=
  forall log, In log (store_logs f) -> read_record CONFIG log <> None.

(** A blob that reads back, whatever the id of its record. *)
Definition reads_back (CONFIG : Config) (blob : string) : Prop :=
  forall i, read_record CONFIG {| id := i; encrypted := blob |} <> None.

(** A Hoare triple on the log file: run from a world whose log file
    satisfies [P], the procedure leaves a log file that satisfies [P], and a
    value it returns satisfies [Q]. *)
Definition keeps {A} (P : LogFile -> Prop) (m : Proc A) (Q : A -> Prop) : Prop :=
  forall w, P (log_file w) ->
    P (log_file (snd (m w))) /\ forall a, fst (m w) = Continue a -> Q a.





(** Linear arithmetic with division and remainder by constants. *)
Ltac euclid := zify; Z.to_euclidean_division_equations; lia.

(** * Test vectors of the primitives *)

(** FIPS 180-4, the one-block message. *)
Example sha256_abc :
  hex (SHA256.digest (list_ascii_of_string "abc"))
  = "ba7816bf8f01cfea414140de5dae2223b00361a396177a9cb410ff61f20015ad".
Proof. vm_compute. reflexivity. Qed.

(** RFC 4231, test case 2. *)
Example hmac_sha256_jefe :
  hex (HMAC.hmac_sha256 (list_ascii_of_string "Jefe")
         (list_ascii_of_string "what do ya want for nothing?"))
  = "5bdcc146bf60754e6a042426089575c75a003f089d2739839dec58b964ec3843".
Proof. vm_compute. reflexivity. Qed.

(** PBKDF2-HMAC-SHA256 with two iterations. *)
Example pbkdf2_two_iterations :
  hex (NodeCrypto.pbkdf2_sha256 "password" (list_ascii_of_string "salt") 2 32)
  = "ae4d0c95af6b46d32d0adff928f06dd02a303f8ef3c251dfd6e2d85a95474c43".
Proof. vm_compute. reflexivity. Qed.

(** FIPS 197, appendix C.3. *)
Example aes256_fips197 :
  AES.encrypt_block
    (AES.key_schedule (unhex "000102030405060708090a0b0c0d0e0f101112131415161718191a1b1c1d1e1f"))
    0x00112233445566778899aabbccddeeff
  = 0x8ea2b7ca516745bfeafc49904b496089.
Proof. vm_compute. reflexivity. Qed.

(** The GCM specification's test case 14 (a 96-bit iv). *)
Example gcm_test_case_14 :
  let (ct, tag) := NodeCrypto.cipher_aes_256_gcm (repeat zero 32) (repeat zero 12) (repeat zero 16) in
  hex ct = "cea7403d4d606b6e074ec5d3baf39d18" /\ hex tag = "d0d1c8a799996bf0265b98b5d48ab919".
Proof. vm_compute. split; reflexivity. Qed.

(** An iv that is not 96 bits long goes through GHASH, as the script's
    16-byte iv does: the key, iv and first block of test case 17. *)
Example gcm_iv_64_bits :
  hex (fst (NodeCrypto.cipher_aes_256_gcm
              (unhex "feffe9928665731c6d6a8f9467308308feffe9928665731c6d6a8f9467308308")
              (unhex "cafebabefacedbad")
              (unhex "d9313225f88406e5a55909c5aff5269a")))
  = "c3762df1ca787d32ae47c13bf19844cb".
Proof. vm_compute. reflexivity. Qed.

Example base64_sample :
  Base64.encode (list_ascii_of_string "audit log!") = "YXVkaXQgbG9nIQ=="
  /\ Base64.decode "YXVkaXQg bG9nIQ==" = list_ascii_of_string "audit log!".
Proof. vm_compute. split; reflexivity. Qed.

(** * Bytes and base64 *)

Lemma byte_val_bound c : byte_val c < 256.
Proof. apply N_ascii_bounded. Qed.

Lemma byte_of_mod n c : n mod 256 = byte_val c -> byte_of n = c.
Proof. unfold byte_of. intros ->. apply ascii_N_embedding. Qed.

Lemma be_bytes_length len n : length (be_bytes len n) = len.
Proof. unfold be_bytes. now rewrite length_map, length_seq. Qed.

(** A property of all values below 64, from its check on each of them. *)
Lemma below_64 (p : N -> bool) :
  forallb (fun n => p (N.of_nat n)) (seq 0 64) = true -> forall v, v < 64 -> p v = true.
Proof.
  intros E v Hv. rewrite forallb_forall in E.
  specialize (E (N.to_nat v)). rewrite N2Nat.id in E. apply E, in_seq. lia.
Qed.

Lemma unbase64_digit v : v < 64 -> Base64.unbase64 (Base64.digit v) = Some v.
Proof.
  intros Hv.
  pose proof (below_64
    (fun n => match Base64.unbase64 (Base64.digit n) with Some w => (w =? n)%N | None => false end)
    eq_refl v Hv) as E.
  cbv beta in E. destruct (Base64.unbase64 (Base64.digit v)) as [w|]; [|discriminate].
  f_equal. now apply N.eqb_eq.
Qed.

Lemma digit_not_padding v : v < 64 -> Ascii.eqb (Base64.digit v) "="%char = false.
Proof.
  intros Hv. apply negb_true_iff.
  exact (below_64 (fun n => negb (Ascii.eqb (Base64.digit n) "="%char)) eq_refl v Hv).
Qed.

Lemma sextets_digit v r : v < 64 -> Base64.sextets (Base64.digit v :: r) = v :: Base64.sextets r.
Proof.
  intros Hv. cbn [Base64.sextets].
  now rewrite digit_not_padding, unbase64_digit by assumption.
Qed.

Lemma list_ind3 {A} (P : list A -> Prop) :
  P [] -> (forall x, P [x]) -> (forall x y, P [x; y]) ->
  (forall x y z r, P r -> P (x :: y :: z :: r)) -> forall l, P l.
Proof.
  intros H0 H1 H2 H3. fix IH 1.
  intros [|x [|y [|z r]]]; [apply H0 | apply H1 | apply H2 | apply H3, IH].
Qed.

Lemma base64_triple (x y z : N) : x < 256 -> y < 256 -> z < 256 ->
  let n := x * 65536 + y * 256 + z in
  let m := (n / 262144) * 262144 + (n / 4096 mod 64) * 4096 + (n / 64 mod 64) * 64 + n mod 64 in
  n / 262144 < 64 /\ n / 4096 mod 64 < 64 /\ n / 64 mod 64 < 64 /\ n mod 64 < 64 /\
  (m / 65536) mod 256 = x /\ (m / 256) mod 256 = y /\ m mod 256 = z.
Proof.
  intros Hx Hy Hz n m.
  assert (Hm : m = n) by (subst m n; euclid).
  rewrite Hm. subst n. repeat split; euclid.
Qed.

Lemma base64_pair (x y : N) : x < 256 -> y < 256 ->
  let n := x * 1024 + y * 4 in
  let m := (n / 4096) * 4096 + (n / 64 mod 64) * 64 + n mod 64 in
  n / 4096 < 64 /\ n / 64 mod 64 < 64 /\ n mod 64 < 64 /\
  (m / 1024) mod 256 = x /\ (m / 4) mod 256 = y.
Proof.
  intros Hx Hy n m.
  assert (Hm : m = n) by (subst m n; euclid).
  rewrite Hm. subst n. repeat split; euclid.
Qed.

Lemma base64_single (x : N) : x < 256 ->
  let n := x * 16 in
  n / 64 < 64 /\ n mod 64 < 64 /\ (((n / 64) * 64 + n mod 64) / 16) mod 256 = x.
Proof. intros Hx n. subst n. repeat split; euclid. Qed.

Lemma decode_groups_encode_bytes :
  forall b, Base64.decode_groups (Base64.sextets (Base64.encode_bytes b)) = b.
Proof.
  induction b as [|x|x y|x y z r IH] using list_ind3.
  - reflexivity.
  - destruct (base64_single (byte_val x) (byte_val_bound x)) as (H1 & H2 & H3).
    cbn [Base64.encode_bytes]. rewrite !sextets_digit by assumption.
    cbn. f_equal. now apply byte_of_mod.
  - destruct (base64_pair _ _ (byte_val_bound x) (byte_val_bound y)) as (H1 & H2 & H3 & H4 & H5).
    cbn [Base64.encode_bytes]. rewrite !sextets_digit by assumption.
    cbn. f_equal; [|f_equal]; now apply byte_of_mod.
  - destruct (base64_triple _ _ _ (byte_val_bound x) (byte_val_bound y) (byte_val_bound z))
      as (H1 & H2 & H3 & H4 & H5 & H6 & H7).
    cbn [Base64.encode_bytes]. rewrite !sextets_digit by assumption.
    cbn [Base64.decode_groups]. rewrite IH.
    f_equal; [|f_equal; [|f_equal]]; now apply byte_of_mod.
Qed.

Lemma base64_decode_encode b : Base64.decode (Base64.encode b) = b.
Proof.
  unfold Base64.decode, Base64.encode.
  rewrite list_ascii_of_string_of_list_ascii. apply decode_groups_encode_bytes.
Qed.

(** * Counter mode and the tag *)

Lemma xor_byte_involutive d k : xor_byte (xor_byte d k) k = d.
Proof.
  destruct d as [d0 d1 d2 d3 d4 d5 d6 d7], k as [k0 k1 k2 k3 k4 k5 k6 k7]; cbn.
  now rewrite !xorb_assoc, !xorb_nilpotent, !xorb_false_r.
Qed.

Lemma ctr_involutive E : forall data cb j, GCM.ctr E cb j (GCM.ctr E cb j data) = data.
Proof.
  induction data as [|d rest IH]; intros cb j; cbn [GCM.ctr].
  - reflexivity.
  - now rewrite xor_byte_involutive, IH.
Qed.

Lemma crypt_involutive E iv data : GCM.crypt E iv (GCM.crypt E iv data) = data.
Proof. apply ctr_involutive. Qed.

Lemma buffer_eqb_eq a : forall b, buffer_eqb a b = true <-> a = b.
Proof.
  induction a as [|x a IH]; intros [|y b]; cbn; split; try congruence; try discriminate.
  - intros H. apply andb_true_iff in H as [H1 H2].
    apply Ascii.eqb_eq in H1. apply IH in H2. congruence.
  - intros [= -> ->]. rewrite Ascii.eqb_refl. now apply IH.
Qed.

Lemma buffer_eqb_refl b : buffer_eqb b b = true.
Proof. now apply buffer_eqb_eq. Qed.

Lemma auth_tag_length key iv data : length (NodeCrypto.auth_tag key iv data) = 16%nat.
Proof. apply be_bytes_length. Qed.

Lemma randomBytes_length src pos n : length (NodeCrypto.randomBytes src pos n) = n.
Proof. unfold NodeCrypto.randomBytes. now rewrite length_map, length_seq. Qed.

Lemma decipher_spec key iv authTag data :
  iv <> [] ->
  (authenticates key iv authTag data ->
   NodeCrypto.decipher_aes_256_gcm key iv authTag data
   = Some (GCM.crypt (NodeCrypto.block_cipher key) iv data))
  /\ (~ authenticates key iv authTag data ->
      NodeCrypto.decipher_aes_256_gcm key iv authTag data = None).
Proof.
  intros Hiv. unfold NodeCrypto.decipher_aes_256_gcm, authenticates.
  destruct iv as [|i0 iv']; [contradiction|].
  destruct (NodeCrypto.valid_tag_length (length authTag)); cbn [andb].
  - destruct (buffer_eqb _ authTag) eqn:E.
    + split; [reflexivity|]. apply buffer_eqb_eq in E. intros H. exfalso. now apply H.
    + split; [|reflexivity]. intros [_ H]. apply buffer_eqb_eq in H. congruence.
  - split; [intros [H _]; discriminate | reflexivity].
Qed.

Lemma decipher_cipher key iv data :
  iv <> [] ->
  NodeCrypto.decipher_aes_256_gcm key iv
    (snd (NodeCrypto.cipher_aes_256_gcm key iv data))
    (fst (NodeCrypto.cipher_aes_256_gcm key iv data)) = Some data.
Proof.
  intros Hiv. unfold NodeCrypto.cipher_aes_256_gcm. cbn [fst snd].
  destruct (decipher_spec key iv
              (NodeCrypto.auth_tag key iv (GCM.crypt (NodeCrypto.block_cipher key) iv data))
              (GCM.crypt (NodeCrypto.block_cipher key) iv data) Hiv) as [-> _].
  - now rewrite crypt_involutive.
  - split.
    + now rewrite auth_tag_length.
    + rewrite auth_tag_length.
      rewrite <- (auth_tag_length key iv (GCM.crypt (NodeCrypto.block_cipher key) iv data)) at 1.
      apply firstn_all.
Qed.

(** * The frame of a blob *)

Lemma firstn_app_exact {A} (a b : list A) n : length a = n -> firstn n (a ++ b) = a.
Proof. intros <-. rewrite firstn_app, Nat.sub_diag, firstn_all. cbn. apply app_nil_r. Qed.

Lemma skipn_app_exact {A} (a b : list A) n : length a = n -> skipn n (a ++ b) = b.
Proof. intros <-. now rewrite skipn_app, Nat.sub_diag, skipn_all. Qed.

(** The four segments of a blob are what the [subarray] calls of [decrypt] cut out. *)
Lemma frame_split (salt iv tag ct : Buffer) :
  length salt = 16%nat -> length iv = 16%nat -> length tag = 16%nat ->
  let buffer := (salt ++ iv ++ tag ++ ct)%list in
  subarray buffer 0 16 = salt /\ subarray buffer 16 32 = iv /\
  subarray buffer 32 48 = tag /\ skipn 48 buffer = ct.
Proof.
  intros Hs Hi Ht buffer. unfold subarray, buffer.
  change (16 - 0)%nat with 16%nat. change (32 - 16)%nat with 16%nat.
  change (48 - 32)%nat with 16%nat.
  change 48%nat with (16 + (16 + 16))%nat. change 32%nat with (16 + 16)%nat.
  rewrite <- !skipn_skipn.
  change (skipn 0 (salt ++ iv ++ tag ++ ct)%list) with (salt ++ iv ++ tag ++ ct)%list.
  rewrite (skipn_app_exact salt _ 16 Hs), (skipn_app_exact iv _ 16 Hi), (skipn_app_exact tag _ 16 Ht).
  rewrite (firstn_app_exact salt _ 16 Hs), (firstn_app_exact iv _ 16 Hi), (firstn_app_exact tag _ 16 Ht).
  repeat split.
Qed.

(** [decrypt] on a blob [encrypt] framed, with any password. *)
Lemma decrypt_framed CONFIG CONFIG' salt iv text :
  length salt = 16%nat -> length iv = 16%nat ->
  decrypt CONFIG' (encrypt_with CONFIG salt iv text)
  = match NodeCrypto.decipher_aes_256_gcm (derived_key CONFIG' salt) iv
            (snd (NodeCrypto.cipher_aes_256_gcm (derived_key CONFIG salt) iv (list_ascii_of_string text)))
            (fst (NodeCrypto.cipher_aes_256_gcm (derived_key CONFIG salt) iv (list_ascii_of_string text)))
    with
    | Some decrypted => Some (string_of_list_ascii decrypted)
    | None => None
    end.
Proof.
  intros Hs Hi. unfold decrypt, encrypt_with.
  assert (Ht : length (snd (NodeCrypto.cipher_aes_256_gcm (derived_key CONFIG salt) iv
                              (list_ascii_of_string text))) = 16%nat)
    by apply auth_tag_length.
  destruct (NodeCrypto.cipher_aes_256_gcm (derived_key CONFIG salt) iv (list_ascii_of_string text))
    as [ct tg].
  cbn [fst snd] in *. rewrite base64_decode_encode.
  destruct (frame_split salt iv tg ct Hs Hi Ht) as (-> & -> & -> & ->).
  reflexivity.
Qed.

Lemma sixteen_not_nil (b : Buffer) : length b = 16%nat -> b <> [].
Proof. intros H ->. discriminate H. Qed.

Lemma decrypt_encrypt_with CONFIG salt iv text :
  length salt = 16%nat -> length iv = 16%nat ->
  decrypt CONFIG (encrypt_with CONFIG salt iv text) = Some text.
Proof.
  intros Hs Hi. rewrite decrypt_framed by assumption.
  rewrite decipher_cipher by now apply sixteen_not_nil.
  now rewrite string_of_list_ascii_of_string.
Qed.

(** [encrypt] always returns: it draws a 16-byte salt, then a 16-byte iv. *)
Lemma encrypt_returns CONFIG env text w :
  exists salt iv w',
    encrypt CONFIG env text w = (Continue (encrypt_with CONFIG salt iv text), w')
    /\ length salt = 16%nat /\ length iv = 16%nat
    /\ log_file w' = log_file w /\ trace w' = trace w /\ git_dir w' = git_dir w.
Proof.
  exists (NodeCrypto.randomBytes (entropy env) (random_pos w) 16),
         (NodeCrypto.randomBytes (entropy env) (random_pos w + 16) 16).
  eexists. split; [reflexivity|].
  rewrite !randomBytes_length. repeat split.
Qed.

(** C2: for every plaintext and every password, [encrypt] returns a blob and
    [decrypt] under the same password returns the plaintext from it. *)
Theorem decrypt_encrypt_roundtrip (CONFIG : Config) (env : Env) (p : string) (w : World) :
  exists blob w',
    encrypt CONFIG env p w = (Continue blob, w') /\ decrypt CONFIG blob = Some p.
Proof.
  destruct (encrypt_returns CONFIG env p w) as (salt & iv & w' & E & Hs & Hi & _).
  exists (encrypt_with CONFIG salt iv p), w'. split; [exact E|].
  now apply decrypt_encrypt_with.
Qed.

(** * Passwords and derived keys *)

(** HMAC pads a short key with zero bytes: a trailing zero byte of the key is not seen. *)
Lemma block_key_trailing_zero (key : Buffer) :
  (length key < 64)%nat -> HMAC.block_key (key ++ [zero])%list = HMAC.block_key key.
Proof.
  intros H. unfold HMAC.block_key, HMAC.block_size.
  rewrite length_app. cbn [length].
  destruct (Nat.ltb_spec 64 (length key + 1)); [lia|].
  destruct (Nat.ltb_spec 64 (length key)); [lia|].
  rewrite length_app. cbn [length].
  replace (64 - length key)%nat with (S (64 - (length key + 1))) by lia.
  cbn [repeat]. now rewrite <- app_assoc.
Qed.

Lemma hmac_trailing_zero (key msg : Buffer) :
  (length key < 64)%nat -> HMAC.hmac_sha256 (key ++ [zero])%list msg = HMAC.hmac_sha256 key msg.
Proof. intros H. unfold HMAC.hmac_sha256. now rewrite block_key_trailing_zero. Qed.



Lemma list_ascii_of_string_length (s : string) :
  length (list_ascii_of_string s) = String.length s.
Proof. induction s as [|c s IH]; cbn; [reflexivity | now rewrite IH]. Qed.



(** From here on the key derivation and the block cipher are used through
    the lemmas above only. *)
Opaque derived_key NodeCrypto.block_cipher NodeCrypto.auth_tag.





Opaque decrypt encrypt_with.



(** * Tamper detector *)

Lemma count_lines_fold (ls : list string) (d a : Z) :
  fold_left count_line ls (d, a)
  = ((d + Z.of_nat (length (filter (fun line => startsWith line "-" && negb (startsWith line "---")) ls)))%Z,
     (a + Z.of_nat (length (filter (fun line => startsWith line "+" && negb (startsWith line "+++")) ls)))%Z).
Proof.
  revert d a. induction ls as [|line ls IH]; intros d a; cbn [fold_left filter].
  - cbn. f_equal; lia.
  - unfold count_line at 2.
    destruct (startsWith line "-" && negb (startsWith line "---"));
      destruct (startsWith line "+" && negb (startsWith line "+++"));
      rewrite IH; cbn [length]; f_equal; lia.
Qed.

Lemma count_lines_counted (diff : string) :
  count_lines diff = (counted_deletions diff, counted_additions diff).
Proof. unfold count_lines. rewrite count_lines_fold. reflexivity. Qed.

Lemma check_commit_spec tampered commit diff :
  check_commit tampered commit diff
  = if (counted_deletions diff >? counted_additions diff + 2)%Z
    then (tampered ++ [tamper_record commit (counted_deletions diff - 2)])%list
    else tampered.
Proof. unfold check_commit. rewrite count_lines_counted. reflexivity. Qed.

Lemma scan_fold env (all : list Commit.t) (acc : list TamperInfo.t) :
  fold_left
    (fun tamperedCommits commit =>
       match git_show env (Commit.hash commit) with
       | Some diff => check_commit tamperedCommits commit diff
       | None => tamperedCommits
       end) all acc
  = (acc ++ flat_map (suspicious env) all)%list.
Proof.
  revert acc. induction all as [|commit all IH]; intros acc; cbn [fold_left flat_map].
  - now rewrite app_nil_r.
  - rewrite IH. unfold suspicious at 2.
    destruct (git_show env (Commit.hash commit)) as [diff|]; [|reflexivity].
    rewrite check_commit_spec.
    destruct (counted_deletions diff >? counted_additions diff + 2)%Z;
      [now rewrite <- app_assoc | reflexivity].
Qed.

Lemma simpleGit_spec w : repo_dir w = true -> simpleGit w = (Continue tt, w).
Proof. intros H. unfold simpleGit. now rewrite H. Qed.

Lemma checkForTampering_spec env w :
  repo_dir w = true ->
  checkForTampering env w = (Continue (tampered env w), w).
Proof.
  intros Hdir. unfold checkForTampering, bind, tampered. rewrite (simpleGit_spec w Hdir).
  destruct (git_dir w); cbn [negb]; [|reflexivity].
  destruct (git_log env) as [all|]; [|reflexivity].
  now rewrite scan_fold.
Qed.

Lemma tampered_history env w all :
  git_dir w = true -> git_log env = Some all -> tampered env w = flat_map (suspicious env) all.
Proof. intros Hg Hl. unfold tampered. now rewrite Hg, Hl. Qed.

(** C3: for a commit whose diff has [a] counted additions and [d] counted
    deletions, the loop body adds a record exactly when [d > a + 2], and the
    record carries [d - 2]; the scan returns, in the order of the history,
    exactly the records of the commits so classified. *)
Theorem tamper_detector_threshold (env : Env) (w : World) (tampered : list TamperInfo.t)
  (commit : Commit.t) (diff : string) :
  let d := counted_deletions diff in
  let a := counted_additions diff in
  count_lines diff = (d, a)
  /\ ((d > a + 2)%Z <->
      check_commit tampered commit diff = (tampered ++ [tamper_record commit (d - 2)])%list)
  /\ ((d <= a + 2)%Z <-> check_commit tampered commit diff = tampered)
  /\ (forall all, repo_dir w = true -> git_dir w = true -> git_log env = Some all ->
      fst (checkForTampering env w) = Continue (flat_map (suspicious env) all))
  /\ (forall info, In info (suspicious env commit) <->
        exists diff', git_show env (Commit.hash commit) = Some diff'
          /\ (counted_deletions diff' > counted_additions diff' + 2)%Z
          /\ info = tamper_record commit (counted_deletions diff' - 2)).
Proof.
  intros d a. split; [apply count_lines_counted|].
  assert (Hne : (tampered ++ [tamper_record commit (d - 2)])%list <> tampered).
  { intros H. apply (f_equal (@length _)) in H. rewrite length_app in H. cbn in H. lia. }
  split; [|split; [|split]].
  - rewrite check_commit_spec. fold d a.
    destruct (Z.gtb_spec d (a + 2)) as [Hgt|Hle]; split; intros Hx; try reflexivity; try lia.
    now symmetry in Hx.
  - rewrite check_commit_spec. fold d a.
    destruct (Z.gtb_spec d (a + 2)) as [Hgt|Hle]; split; intros Hx; try reflexivity; try lia.
    contradiction.
  - intros all Hdir Hg Hl. rewrite (checkForTampering_spec env w Hdir).
    now rewrite (tampered_history env w all Hg Hl).
  - intros info. unfold suspicious.
    destruct (git_show env (Commit.hash commit)) as [diff'|].
    + destruct (Z.gtb_spec (counted_deletions diff') (counted_additions diff' + 2)) as [Hgt|Hle].
      * split.
        -- intros [<- | []]. exists diff'. repeat split. lia.
        -- intros (x & [= <-] & _ & ->). now left.
      * split; [intros [] | intros (x & [= <-] & Hgt & _); lia].
    + split; [intros [] | intros (x & [=] & _)].
Qed.

(** C4, counterexample: a diff with three counted additions and five counted
    deletions is not classified as suspicious. *)
Lemma three_additions_five_deletions_benign :
  counted_additions sample_diff_3_5 = 3%Z /\ counted_deletions sample_diff_3_5 = 5%Z
  /\ check_commit [] sample_commit sample_diff_3_5 = [].
Proof. vm_compute. repeat split. Qed.

(** C4, amended: with exactly three counted additions and five counted
    deletions the commit is not suspicious (5 is not above 3 + 2): the loop
    body adds no record. *)
Theorem three_five_not_suspicious (tampered : list TamperInfo.t) (commit : Commit.t) (diff : string)
  (Ha : counted_additions diff = 3%Z) (Hd : counted_deletions diff = 5%Z) :
  check_commit tampered commit diff = tampered.
Proof. rewrite check_commit_spec, Ha, Hd. reflexivity. Qed.

Lemma three_five_not_suspicious_witness :
  counted_additions sample_diff_3_5 = 3%Z /\ counted_deletions sample_diff_3_5 = 5%Z
  /\ check_commit [] sample_commit sample_diff_3_5 = [].
Proof.
  assert (Ha : counted_additions sample_diff_3_5 = 3%Z) by (vm_compute; reflexivity).
  assert (Hd : counted_deletions sample_diff_3_5 = 5%Z) by (vm_compute; reflexivity).
  split; [exact Ha | split; [exact Hd|]].
  exact (three_five_not_suspicious [] sample_commit sample_diff_3_5 Ha Hd).
Defined.

(** * Confirmation *)

Lemma confirmCommand_spec env command w :
  confirmCommand env command w
  = (Continue (String.eqb (toLowerCase (answer env)) "y"
               || String.eqb (toLowerCase (answer env)) "yes"),
     snd (emit (Asked command) w)).
Proof. reflexivity. Qed.

(** C10: the confirmation is affirmative exactly when the lower-cased answer
    is [y] or [yes]; every other answer declines, among them an answer with
    a space, an empty one, and any other word. *)
Theorem confirm_affirmative_iff (env : Env) (command : string) (w : World) :
  (fst (confirmCommand env command w) = Continue true
   <-> (toLowerCase (answer env) = "y" \/ toLowerCase (answer env) = "yes"))
  /\ (fst (confirmCommand env command w) = Continue false
      <-> (toLowerCase (answer env) <> "y" /\ toLowerCase (answer env) <> "yes"))
  /\ (forall a, In a ["y"; "Y"; "yes"; "YES"; "Yes"; "yEs"] -> answer env = a ->
      fst (confirmCommand env command w) = Continue true)
  /\ (forall a, In a ["y "; " y"; "Y es"; ""; "n"; "no"; "ye"; "yess"; "yes "; "ok"] -> answer env = a ->
      fst (confirmCommand env command w) = Continue false).
Proof.
  rewrite confirmCommand_spec. cbn [fst].
  destruct (String.eqb_spec (toLowerCase (answer env)) "y") as [Hy|Hy];
    destruct (String.eqb_spec (toLowerCase (answer env)) "yes") as [Hs|Hs]; cbn [orb].
  all: split; [|split; [|split]].
  all: try (split; [intros _ | intros _; reflexivity]; tauto).
  all: try (split; [intros [=] | intros [? ?]; contradiction]).
  all: try (split; [intros [=] | intros [? | ?]; contradiction]).
  all: try (split; [intros _; now split | reflexivity]).
  all: intros a Hin Ha; rewrite Ha in Hy, Hs; cbn in Hin;
    repeat (destruct Hin as [<- | Hin]; [cbn in Hy, Hs; congruence|]); contradiction.
Qed.

(** * Entry store *)

Lemma saveToRepo_document (blob : string) (w : World) (logs : list EncryptedRecord) :
  log_file w = Document logs ->
  log_file (snd (saveToRepo blob w))
  = Document (logs ++ [{| id := Z.of_nat (length logs) + 1; encrypted := blob |}]).
Proof. intros H. unfold saveToRepo. cbn. now rewrite H. Qed.

Lemma saveToRepo_empty (blob : string) (w : World) :
  log_file w = Absent \/ log_file w = Unparseable ->
  log_file (snd (saveToRepo blob w)) = Document [{| id := 1; encrypted := blob |}].
Proof. intros [H|H]; unfold saveToRepo; cbn; now rewrite H. Qed.

Lemma saveToRepo_continues blob w : fst (saveToRepo blob w) = Continue tt.
Proof. reflexivity. Qed.

Lemma for_each_saveToRepo (blobs : list string) :
  forall w logs, log_file w = Document logs ->
    fst (for_each blobs saveToRepo w) = Continue tt
    /\ log_file (snd (for_each blobs saveToRepo w))
       = Document (logs ++ numbered (length logs) blobs).
Proof.
  induction blobs as [|blob rest IH]; intros w logs H; cbn [for_each numbered].
  - cbn. now rewrite app_nil_r.
  - unfold bind. destruct (saveToRepo blob w) as [[[]| | |] w'] eqn:E;
      try (apply (f_equal fst) in E; discriminate E).
    pose proof (saveToRepo_document blob w logs H) as H'. rewrite E in H'. cbn [snd] in H'.
    destruct (IH w' _ H') as [IH1 IH2]. split; [exact IH1|].
    rewrite IH2, length_app, <- app_assoc. cbn [length app].
    now rewrite Nat.add_1_r.
Qed.

Lemma numbered_length first blobs : length (numbered first blobs) = length blobs.
Proof. revert first. induction blobs as [|b r IH]; intros first; cbn; [reflexivity | now rewrite IH]. Qed.

Lemma numbered_nth first blobs : forall i blob,
  nth_error blobs i = Some blob ->
  nth_error (numbered first blobs) i
  = Some {| id := Z.of_nat (first + i) + 1; encrypted := blob |}.
Proof.
  revert first. induction blobs as [|b r IH]; intros first [|i] blob H; cbn in *; try discriminate.
  - injection H as ->. now rewrite Nat.add_0_r.
  - rewrite (IH (S first) i blob H). do 3 f_equal. lia.
Qed.

(** C6: appending [n] blobs to an empty store (the file absent or
    unparseable) leaves the records with ids [1..n] in order: the record at
    position [i] (counted from 1) has id [i] and holds the [i]-th blob; each
    append gives its record the id of the current count plus one. *)
Theorem append_ids_sequential (blobs : list string) (w : World)
  (Hempty : log_file w = Absent \/ log_file w = Unparseable) :
  let w' := snd (for_each blobs saveToRepo w) in
  fst (for_each blobs saveToRepo w) = Continue tt
  /\ (blobs <> [] -> log_file w' = Document (numbered 0 blobs))
  /\ (forall i blob, nth_error blobs i = Some blob ->
        exists logs, log_file w' = Document logs
          /\ length logs = length blobs
          /\ nth_error logs i = Some {| id := Z.of_nat i + 1; encrypted := blob |})
  /\ (forall logs blob w0, log_file w0 = Document logs ->
        log_file (snd (saveToRepo blob w0))
        = Document (logs ++ [{| id := Z.of_nat (length logs) + 1; encrypted := blob |}])).
Proof.
  intros w'.
  assert (Hall : fst (for_each blobs saveToRepo w) = Continue tt
                 /\ (blobs <> [] -> log_file w' = Document (numbered 0 blobs))).
  { subst w'. destruct blobs as [|blob rest]; [now split|].
    cbn [for_each]. unfold bind.
    destruct (saveToRepo blob w) as [[[]| | |] w1] eqn:E;
      try (apply (f_equal fst) in E; discriminate E).
    pose proof (saveToRepo_empty blob w Hempty) as H1. rewrite E in H1. cbn [snd] in H1.
    destruct (for_each_saveToRepo rest w1 _ H1) as [F1 F2].
    split; [exact F1|]. intros _. rewrite F2. reflexivity. }
  destruct Hall as [Hc Hdoc]. split; [exact Hc|]. split; [exact Hdoc|]. split.
  - intros i blob Hn. assert (Hne : blobs <> []) by (intros ->; destruct i; discriminate Hn).
    exists (numbered 0 blobs). split; [now apply Hdoc|]. split; [apply numbered_length|].
    now rewrite (numbered_nth 0 blobs i blob Hn).
  - intros logs blob w0. apply saveToRepo_document.
Qed.

Lemma append_ids_sequential_witness :
  (log_file sample_world = Absent \/ log_file sample_world = Unparseable)
  /\ log_file (snd (for_each ["b1"; "b2"; "b3"] saveToRepo sample_world))
     = Document [{| id := 1; encrypted := "b1" |}; {| id := 2; encrypted := "b2" |};
                 {| id := 3; encrypted := "b3" |}].
Proof.
  split; [left; reflexivity|].
  apply (append_ids_sequential ["b1"; "b2"; "b3"] sample_world (or_introl eq_refl)).
  discriminate.
Defined.

(** * The workflow *)

Lemma appended_refl w : appended w w [].
Proof. unfold appended. cbn. rewrite app_nil_r. repeat split. exact (fun H => H). Qed.

Lemma appended_trans w1 w2 w3 rs1 rs2 :
  appended w1 w2 rs1 -> appended w2 w3 rs2 -> appended w1 w3 (rs1 ++ rs2).
Proof.
  intros (T1 & D1 & G1 & L1) (T2 & D2 & G2 & L2). unfold appended.
  split; [|split; [|split]].
  - now rewrite T2, T1, map_app, app_assoc.
  - intros H. apply D2, D1, H.
  - congruence.
  - rewrite L2. destruct rs2 as [|r2 rs2].
    + rewrite app_nil_r. exact L1.
    + rewrite L1. destruct rs1 as [|r1 rs1]; cbn [app store_logs].
      * reflexivity.
      * now rewrite <- app_assoc.
Qed.

Lemma now_appended env w :
  exists w', now env w = (Continue (clock env (clock_pos w)), w') /\ appended w w' [].
Proof.
  eexists. split; [reflexivity|]. unfold appended. cbn. rewrite app_nil_r.
  repeat split. exact (fun H => H).
Qed.

Lemma encrypt_appended CONFIG env text w :
  exists salt iv w',
    encrypt CONFIG env text w = (Continue (encrypt_with CONFIG salt iv text), w')
    /\ length salt = 16%nat /\ length iv = 16%nat /\ appended w w' [].
Proof.
  exists (NodeCrypto.randomBytes (entropy env) (random_pos w) 16),
         (NodeCrypto.randomBytes (entropy env) (random_pos w + 16) 16).
  eexists. split; [reflexivity|].
  rewrite !randomBytes_length. split; [reflexivity|]. split; [reflexivity|].
  unfold appended. cbn. rewrite app_nil_r. repeat split. exact (fun H => H).
Qed.

Lemma saveToRepo_appended blob w :
  exists w',
    saveToRepo blob w = (Continue tt, w')
    /\ appended w w' [{| id := Z.of_nat (length (store_logs (log_file w))) + 1; encrypted := blob |}].
Proof.
  eexists. split; [reflexivity|]. unfold appended. cbn.
  repeat split.
Qed.

Lemma createLogEntry_appended CONFIG env command w :
  exists blob w', createLogEntry CONFIG env command w = (Continue blob, w') /\ appended w w' [].
Proof.
  unfold createLogEntry, bind.
  destruct (now_appended env w) as (w1 & -> & A1).
  match goal with |- context [encrypt CONFIG env ?text w1] =>
    destruct (encrypt_appended CONFIG env text w1) as (salt & iv & w2 & -> & _ & _ & A2) end.
  eexists _, w2. split; [reflexivity|].
  exact (appended_trans _ _ _ _ _ A1 A2).
Qed.

(** The plaintext of the warning for a suspicious commit, written at time [t]. *)
Lemma logTamperingWarning_appended CONFIG env info w :
  exists salt iv w' entry,
    logTamperingWarning CONFIG env info w
    = (Continue (encrypt_with CONFIG salt iv (JSON.stringify (entry_value entry))), w')
    /\ length salt = 16%nat /\ length iv = 16%nat /\ appended w w' []
    /\ command entry
       = "[TAMPERING DETECTED] " ++ number_to_string (TamperInfo.deletions info)
         ++ " log entries deleted in commit " ++ substring 0 7 (TamperInfo.hash info)
         ++ " by " ++ TamperInfo.author info
    /\ exitCode entry = Some (-1)%Z.
Proof.
  unfold logTamperingWarning, bind.
  destruct (now_appended env w) as (w1 & -> & A1).
  match goal with |- context [encrypt CONFIG env (JSON.stringify (entry_value ?e)) w1] =>
    destruct (encrypt_appended CONFIG env (JSON.stringify (entry_value e)) w1)
      as (salt & iv & w2 & -> & Hs & Hi & A2);
    exists salt, iv, w2, e end.
  split; [reflexivity|]. split; [exact Hs|]. split; [exact Hi|].
  split; [exact (appended_trans _ _ _ _ _ A1 A2)|]. split; reflexivity.
Qed.

Lemma getLoggedTamperCommits_continues CONFIG w :
  exists already, getLoggedTamperCommits CONFIG w = (Continue already, w).
Proof. unfold getLoggedTamperCommits. destruct (log_file w); eexists; reflexivity. Qed.

(** The loop of step 4 returns, and only appends records. *)
Lemma report_loop_appended CONFIG env already (infos : list TamperInfo.t) :
  forall w, exists rs w',
    for_each infos
      (fun tamperInfo =>
         if negb (Set_has already (substring 0 7 (TamperInfo.hash tamperInfo)))
         then bind (logTamperingWarning CONFIG env tamperInfo) (fun warningEntry => saveToRepo warningEntry)
         else ret tt) w
    = (Continue tt, w') /\ appended w w' rs.
Proof.
  induction infos as [|info infos IH]; intros w; cbn [for_each].
  - exists [], w. split; [reflexivity | apply appended_refl].
  - unfold bind at 1.
    destruct (negb (Set_has already (substring 0 7 (TamperInfo.hash info)))).
    + unfold bind at 1.
      destruct (logTamperingWarning_appended CONFIG env info w)
        as (salt & iv & w1 & entry & -> & _ & _ & A1 & _).
      destruct (saveToRepo_appended (encrypt_with CONFIG salt iv (JSON.stringify (entry_value entry))) w1)
        as (w2 & -> & A2).
      destruct (IH w2) as (rs & w3 & -> & A3).
      eexists _, w3. split; [reflexivity|].
      exact (appended_trans _ _ _ _ _ (appended_trans _ _ _ _ _ A1 A2) A3).
    + unfold ret at 1. destruct (IH w) as (rs & w3 & -> & A3). now exists rs, w3.
Qed.

Lemma report_tampering_appended CONFIG env w :
  repo_dir w = true ->
  exists rs w', report_tampering CONFIG env w = (Continue tt, w') /\ appended w w' rs.
Proof.
  intros Hdir.
  unfold report_tampering. unfold bind at 1. rewrite (checkForTampering_spec env w Hdir).
  unfold bind at 1.
  destruct (getLoggedTamperCommits_continues CONFIG w) as (already & ->).
  match goal with |- context [(0 <? length ?l)%nat] => destruct (0 <? length l)%nat end.
  - apply report_loop_appended.
  - exists [], w. split; [reflexivity | apply appended_refl].
Qed.

Lemma pullFromGitHub_spec env w :
  repo_dir w = true ->
  exists w',
    pullFromGitHub env w = (Continue (pull_succeeds env w), w')
    /\ trace w' = (trace w ++ [Pulled (pull_succeeds env w)])%list
    /\ log_file w' = pulled_file env w
    /\ repo_dir w' = true
    /\ (pull_succeeds env w = true -> git_dir w' = true).
Proof.
  intros Hdir. unfold pullFromGitHub, bind at 1. rewrite (simpleGit_spec w Hdir).
  unfold pull_succeeds, pulled_file.
  destruct (git_dir w) eqn:G; cbn [negb].
  - destruct (git_pull env (log_file w)) as [ok f]. eexists. split; [reflexivity|].
    cbn. repeat split; [exact Hdir | intros _; exact G].
  - destruct (git_clone env) as [f|]; eexists; (split; [reflexivity|]); cbn; repeat split.
    + exact Hdir.
    + discriminate.
Qed.

Lemma pullFromGitHub_throws env w :
  repo_dir w = false -> exists error, pullFromGitHub env w = (Rejected error, w).
Proof.
  intros Hdir. unfold pullFromGitHub, bind at 1, simpleGit. rewrite Hdir.
  eexists. reflexivity.
Qed.

Lemma pull_succeeds_frame env w w' :
  git_dir w' = git_dir w -> log_file w' = log_file w ->
  pull_succeeds env w' = pull_succeeds env w /\ pulled_file env w' = pulled_file env w.
Proof. intros G L. unfold pull_succeeds, pulled_file. now rewrite G, L. Qed.

Lemma pushToGitHub_spec env w :
  repo_dir w = true ->
  pushToGitHub env w = (Continue (push_succeeds env), snd (emit (Pushed (push_succeeds env)) w)).
Proof.
  intros Hdir. unfold pushToGitHub, bind at 1. rewrite (simpleGit_spec w Hdir). reflexivity.
Qed.

(** The gates of [main] and what each way out leaves behind. *)
Lemma main_cases CONFIG env w :
  let command := String.concat " " (argv env) in
  let r := main CONFIG env w in
  (argv env = [] -> r = (Exit 1, w))
  /\ (argv env <> [] -> affirmative env = false ->
      fst r = Exit 0 /\ trace (snd r) = (trace w ++ [Asked command])%list
      /\ log_file (snd r) = log_file w)
  /\ (argv env <> [] -> affirmative env = true -> repo_dir w = false ->
      (exists error, fst r = Rejected error)
      /\ trace (snd r) = (trace w ++ [Asked command])%list
      /\ log_file (snd r) = log_file w)
  /\ (argv env <> [] -> affirmative env = true -> repo_dir w = true ->
      pull_succeeds env w = false ->
      fst r = Exit 1 /\ trace (snd r) = (trace w ++ [Asked command; Pulled false])%list
      /\ log_file (snd r) = pulled_file env w)
  /\ (argv env <> [] -> affirmative env = true -> repo_dir w = true ->
      pull_succeeds env w = true ->
      exists rs,
        rs <> []
        /\ trace (snd r)
           = (trace w ++ [Asked command; Pulled true] ++ map Saved rs
                ++ [ViewerCopied; Pushed (push_succeeds env)]
                ++ if push_succeeds env then [Executed (argv env)] else [])%list
        /\ log_file (snd r) = Document (store_logs (pulled_file env w) ++ rs)
        /\ fst r = if push_succeeds env then sudo_outcome env else Exit 1).
Proof.
  intros command r.
  assert (Er : r = main CONFIG env w) by reflexivity. clearbody r.
  unfold main in Er. subst command.
  destruct (argv env) as [|a args] eqn:Eargs.
  { cbn in Er. subst r. repeat split; intros; congruence. }
  change (length (a :: args) =? 0)%nat with false in Er. cbv iota in Er.
  split; [intros [=]|].
  unfold bind at 1, confirmCommand at 1 in Er. unfold bind at 1, emit at 1, ret at 1 in Er.
  fold (affirmative env) in Er.
  set (w1 := {| repo_dir := repo_dir w; git_dir := git_dir w; log_file := log_file w;
                index_html := index_html w; nojekyll := nojekyll w;
                random_pos := random_pos w; clock_pos := clock_pos w;
                trace := (trace w ++ [Asked (String.concat " " (a :: args))])%list |}) in Er.
  destruct (affirmative env) eqn:Eyes; cbn [negb] in Er.
  2:{ unfold process_exit in Er. subst r.
      split; [intros _ _; repeat split|].
      split; [intros _ [=]|]. split; [intros _ [=]|intros _ [=]]. }
  split; [intros _ [=]|].
  destruct (pull_succeeds_frame env w w1 eq_refl eq_refl) as [P1 P2].
  unfold bind at 1 in Er.
  assert (D1 : repo_dir w1 = repo_dir w) by reflexivity.
  destruct (repo_dir w) eqn:Edir.
  2:{ destruct (pullFromGitHub_throws env w1 D1) as (error & Epf).
      rewrite Epf in Er. subst r.
      split; [|split; intros _ _ [=]].
      intros _ _ _. cbn [fst snd]. split; [now exists error|]. split; reflexivity. }
  split; [intros _ _ [=]|].
  destruct (pullFromGitHub_spec env w1 D1) as (w2 & Epf & T2 & L2 & D2 & G2).
  rewrite Epf in Er. clear Epf.
  rewrite P1 in *. rewrite P2 in *.
  destruct (pull_succeeds env w) eqn:Epull; cbn [negb] in Er.
  2:{ unfold process_exit in Er. subst r.
      split; [|intros _ _ _ [=]]. intros _ _ _ _. cbn [fst snd]. repeat split.
      - rewrite T2. subst w1. cbn [trace]. now rewrite <- app_assoc.
      - exact L2. }
  split; [intros _ _ _ [=]|]. intros _ _ _ _.
  unfold bind at 1 in Er.
  destruct (report_tampering_appended CONFIG env w2 D2) as (rs1 & w3 & E3 & A3).
  rewrite E3 in Er. clear E3.
  unfold bind at 1 in Er.
  destruct (createLogEntry_appended CONFIG env (String.concat " " (a :: args)) w3)
    as (blob & w4 & E4 & A4).
  rewrite E4 in Er. clear E4.
  unfold bind at 1 in Er.
  destruct (saveToRepo_appended blob w4) as (w5 & E5 & A5).
  rewrite E5 in Er. clear E5.
  pose proof (appended_trans _ _ _ _ _ (appended_trans _ _ _ _ _ A3 A4) A5) as A.
  rewrite app_nil_r in A.
  set (r5 := {| id := Z.of_nat (length (store_logs (log_file w4))) + 1; encrypted := blob |}) in *.
  destruct A as (TA & DA & GA & LA).
  assert (Hlog : log_file w5 = Document (store_logs (pulled_file env w) ++ rs1 ++ [r5]))
    by (rewrite LA, L2; now destruct rs1).
  assert (Htr : trace w5 = (trace w ++ [Asked (String.concat " " (a :: args)); Pulled true]
                              ++ map Saved (rs1 ++ [r5]))%list)
    by (rewrite TA, T2; subst w1; cbn [trace]; now rewrite <- !app_assoc).
  exists (rs1 ++ [r5])%list.
  split; [now destruct rs1|].
  unfold bind at 1, copyHtmlViewer at 1 in Er.
  unfold bind at 1 in Er.
  rewrite pushToGitHub_spec in Er by (cbn [repo_dir]; exact (DA D2)).
  unfold emit in Er. cbn [snd] in Er.
  destruct (push_succeeds env) eqn:Epush; cbn [negb] in Er.
  - unfold execSudo, bind, emit in Er. cbn [fst snd trace log_file] in Er.
    unfold sudo_outcome.
    destruct (sudo_exit env); subst r; cbn [fst snd trace log_file];
      (repeat split; [ rewrite Htr; now rewrite <- !app_assoc | exact Hlog ]).
  - unfold process_exit in Er. subst r. cbn [fst snd trace log_file]. repeat split.
    + rewrite Htr. now rewrite <- !app_assoc.
    + exact Hlog.
Qed.

Lemma saved_not_executed rs : forallb (fun e => negb (is_executed e)) (map Saved rs) = true.
Proof. induction rs as [|r rs IH]; [reflexivity | exact IH]. Qed.

(** The events [main] adds to the trace, by the way it ends: at a gate, by
    the error simple-git throws for a missing directory, or with the command. *)
Lemma main_events CONFIG env w :
  exists events,
    trace (snd (main CONFIG env w)) = (trace w ++ events)%list
    /\ ((early_abort env w = true
         /\ fst (main CONFIG env w) = Exit (abort_status env)
         /\ forallb (fun e => negb (is_executed e)) events = true)
        \/ (pull_throws env w = true
            /\ (exists error, fst (main CONFIG env w) = Rejected error)
            /\ forallb (fun e => negb (is_executed e)) events = true)
        \/ (early_abort env w = false
            /\ pull_throws env w = false
            /\ fst (main CONFIG env w) = sudo_outcome env
            /\ exists before,
                 events = (before ++ [Pushed true; Executed (argv env)])%list
                 /\ forallb (fun e => negb (is_executed e)) before = true)).
Proof.
  destruct (main_cases CONFIG env w) as (C1 & C2 & C3 & C4 & C5).
  unfold early_abort, pull_throws, abort_status.
  destruct (argv env) as [|a args] eqn:Eargs.
  { exists []. rewrite (C1 eq_refl). cbn [fst snd]. rewrite app_nil_r.
    split; [reflexivity|]. left. repeat split. }
  assert (Hne : a :: args <> []) by discriminate.
  destruct (affirmative env) eqn:Eyes; cbn [negb orb andb].
  2:{ destruct (C2 Hne eq_refl) as (F & T & _). eexists. split; [exact T|].
      left. repeat split. exact F. }
  destruct (repo_dir w) eqn:Edir; cbn [negb andb].
  2:{ destruct (C3 Hne eq_refl eq_refl) as (F & T & _). eexists. split; [exact T|].
      right. left. repeat split. exact F. }
  destruct (pull_succeeds env w) eqn:Epull; cbn [negb orb].
  2:{ destruct (C4 Hne eq_refl eq_refl eq_refl) as (F & T & _). eexists. split; [exact T|].
      left. repeat split. exact F. }
  destruct (C5 Hne eq_refl eq_refl eq_refl) as (rs & _ & T & _ & F).
  eexists. split; [exact T|].
  destruct (push_succeeds env) eqn:Epush; cbn [negb].
  - right. right. split; [reflexivity|]. split; [reflexivity|]. split; [exact F|].
    exists ([Asked (String.concat " " (a :: args)); Pulled true] ++ map Saved rs ++ [ViewerCopied])%list.
    split.
    + cbn [app]. rewrite <- !app_assoc. reflexivity.
    + cbn [app forallb is_executed negb andb]. rewrite forallb_app, saved_not_executed. reflexivity.
  - left. split; [reflexivity|]. split; [exact F|].
    cbn [app forallb is_executed negb andb]. rewrite forallb_app, saved_not_executed. reflexivity.
Qed.

Lemma not_executed_in events args :
  forallb (fun e => negb (is_executed e)) events = true -> ~ In (Executed args) events.
Proof.
  intros H Hin. rewrite forallb_forall in H. specialize (H _ Hin). discriminate H.
Qed.

(** C1: in every invocation an [Executed] event, if there is one, is the
    last event and comes right after a successful push; when
    [pushToGitHub] returns failure no [Executed] event occurs and the
    process ends with an exit status (or, where the log directory is
    missing, with the error simple-git throws), never with the outcome of
    the command. *)
Theorem push_precedes_execution (CONFIG : Config) (env : Env) (w : World) :
  exists events,
    trace (snd (main CONFIG env w)) = (trace w ++ events)%list
    /\ (forall args, In (Executed args) events ->
        push_succeeds env = true
        /\ exists before,
             events = (before ++ [Pushed true; Executed args])%list
             /\ forall args', ~ In (Executed args') before)
    /\ (push_succeeds env = false ->
        (forall args, ~ In (Executed args) events)
        /\ (fst (main CONFIG env w) = Exit (abort_status env)
            \/ (repo_dir w = false /\ exists error, fst (main CONFIG env w) = Rejected error)))
    /\ (forall w0, repo_dir w0 = true ->
        fst (pushToGitHub env w0) = Continue (push_succeeds env)).
Proof.
  assert (Hpush : forall w0, repo_dir w0 = true ->
                    fst (pushToGitHub env w0) = Continue (push_succeeds env))
    by (intros w0 D0; now rewrite (pushToGitHub_spec env w0 D0)).
  destruct (main_events CONFIG env w)
    as (events & T & [(A & F & N) | [(A & F & N) | (A & B & F & before & E & N)]]).
  - exists events. split; [exact T|]. split; [|split; [|exact Hpush]].
    + intros args Hin. exfalso. exact (not_executed_in _ _ N Hin).
    + intros _. split; [intros args; now apply not_executed_in | left; exact F].
  - exists events. split; [exact T|]. split; [|split; [|exact Hpush]].
    + intros args Hin. exfalso. exact (not_executed_in _ _ N Hin).
    + intros _. split; [intros args; now apply not_executed_in | right; split; [|exact F]].
      unfold pull_throws in A. destruct (argv env); [discriminate A|].
      destruct (repo_dir w); [|reflexivity].
      rewrite andb_false_r in A. discriminate A.
  - assert (P : push_succeeds env = true).
    { unfold early_abort in A. unfold pull_throws in B.
      destruct (argv env); [discriminate A|].
      destruct (affirmative env); [|discriminate A].
      destruct (repo_dir w); [|discriminate B].
      destruct (push_succeeds env); [reflexivity|].
      cbn [negb orb andb] in A. rewrite orb_true_r in A. discriminate A. }
    exists events. split; [exact T|]. split; [|split; [|exact Hpush]].
    + intros args Hin. split; [exact P|]. exists before. subst events.
      apply in_app_or in Hin as [Hin | [Hin | [Hin | []]]].
      * exfalso. exact (not_executed_in _ _ N Hin).
      * discriminate Hin.
      * injection Hin as <-. split; [reflexivity|]. intros args'. now apply not_executed_in.
    + intros P'. rewrite P in P'. discriminate P'.
Qed.



(** C9, counterexample: when the user declines, the process exits with status 0. *)
Lemma decline_exits_with_zero :
  affirmative (sample_env "n" true true) = false
  /\ fst (main (sample_config "secret") (sample_env "n" true true) sample_world) = Exit 0.
Proof.
  split; [reflexivity|].
  destruct (main_cases (sample_config "secret") (sample_env "n" true true) sample_world)
    as (_ & C2 & _).
  apply C2; [discriminate | reflexivity].
Qed.

(** C9, amended: every early abort at a gate ends the process without
    executing the privileged command; the exit status is 1 when no command
    is given, when the pull fails and when the push fails, and 0 when the
    user declines the confirmation. *)
Theorem early_abort_status (CONFIG : Config) (env : Env) (w : World)
  (Habort : early_abort env w = true) :
  fst (main CONFIG env w) = Exit (abort_status env)
  /\ (abort_status env = 0%Z <-> (argv env <> [] /\ affirmative env = false))
  /\ (abort_status env = 1%Z <-> (argv env = [] \/ affirmative env = true))
  /\ exists events,
       trace (snd (main CONFIG env w)) = (trace w ++ events)%list
       /\ forall args, ~ In (Executed args) events.
Proof.
  destruct (main_events CONFIG env w) as (events & T & [(A & F & N) | [(A & _) | (A & _)]]).
  2:{ exfalso. unfold early_abort in Habort. unfold pull_throws in A.
      destruct (argv env); [discriminate A|].
      destruct (affirmative env); [|discriminate A].
      destruct (repo_dir w); [discriminate A | discriminate Habort]. }
  2:{ rewrite A in Habort. discriminate Habort. }
  split; [exact F|]. split; [|split].
  - unfold abort_status. destruct (argv env) as [|a args].
    + split; [intros [=] | intros [H _]; now contradiction H].
    + destruct (affirmative env); split.
      * intros [=].
      * intros [_ [=]].
      * intros _. split; [discriminate | reflexivity].
      * reflexivity.
  - unfold abort_status. destruct (argv env) as [|a args].
    + split; [now left | reflexivity].
    + destruct (affirmative env); split.
      * intros _. now right.
      * reflexivity.
      * intros [=].
      * intros [[=] | [=]].
  - exists events. split; [exact T|]. intros args. now apply not_executed_in.
Qed.

Lemma early_abort_status_witness :
  early_abort (sample_env "yes" true false) sample_world = true
  /\ fst (main (sample_config "secret") (sample_env "yes" true false) sample_world) = Exit 1.
Proof.
  assert (Habort : early_abort (sample_env "yes" true false) sample_world = true) by reflexivity.
  split; [exact Habort|].
  exact (proj1 (early_abort_status (sample_config "secret") (sample_env "yes" true false)
                  sample_world Habort)).
Defined.

(** * JSON round trip of a log entry *)

Lemma append_assoc (a b c : string) : (a ++ b) ++ c = a ++ (b ++ c).
Proof. induction a as [|x a IH]; cbn; [reflexivity | now rewrite IH]. Qed.

Lemma append_length (a b : string) : String.length (a ++ b) = (String.length a + String.length b)%nat.
Proof. induction a as [|x a IH]; cbn; [reflexivity | now rewrite IH]. Qed.

(** A character of a string literal is read back from its escape. *)
Lemma parse_chars_escape_char (c : ascii) (s : string) :
  JSON.parse_chars (JSON.escape_char c ++ s) = JSON.prepend (String c "") (JSON.parse_chars s).
Proof.
  destruct c as [[] [] [] [] [] [] [] []]; reflexivity.
Qed.

Lemma parse_chars_escape (s rest : string) :
  JSON.parse_chars (JSON.escape s ++ String JSON.dquote rest) = Some (s, rest).
Proof.
  induction s as [|c s IH]; cbn [JSON.escape].
  - reflexivity.
  - rewrite append_assoc, parse_chars_escape_char, IH. reflexivity.
Qed.

Lemma parse_value_string (fuel : nat) (s rest : string) :
  JSON.parse_value (S fuel) (JSON.quote s ++ rest) = Some (JSON.Str s, rest).
Proof.
  unfold JSON.quote. cbn [append]. rewrite append_assoc. cbn [append].
  cbn [JSON.parse_value JSON.skip_ws JSON.is_ws]. cbv beta iota zeta.
  change (JSON.is_ws JSON.dquote) with false. cbv iota.
  change (Ascii.eqb JSON.dquote "{") with false.
  change (Ascii.eqb JSON.dquote "[") with false.
  change (Ascii.eqb JSON.dquote JSON.dquote) with true. cbv iota.
  now rewrite parse_chars_escape.
Qed.

Lemma parse_value_simple (fuel : nat) (v : JSON.value) (c : ascii) (tail : string) :
  simple_value v -> c = ","%char \/ c = "}"%char ->
  JSON.parse_value (S fuel) (JSON.stringify v ++ String c tail) = Some (v, String c tail).
Proof.
  intros Hv Hc. destruct v as [| b | literal | s | items | members]; cbn in Hv; try contradiction.
  - reflexivity.
  - subst literal. destruct Hc as [-> | ->]; reflexivity.
  - apply parse_value_string.
Qed.

(** One member read by [parse_members]. *)
Lemma parse_members_step (fuel : nat) (key : string) (X : string) :
  JSON.parse_members (S fuel) (JSON.quote key ++ ":" ++ X)
  = match JSON.parse_value fuel X with
    | Some (v, r3) =>
        match JSON.skip_ws r3 with
        | String ","%char r4 =>
            match JSON.parse_members fuel r4 with
            | Some (ms, r5) => Some ((key, v) :: ms, r5)
            | None => None
            end
        | String "}"%char r4 => Some ([(key, v)], r4)
        | _ => None
        end
    | None => None
    end.
Proof.
  unfold JSON.quote. cbn [append]. rewrite append_assoc. cbn [append].
  cbn [JSON.parse_members JSON.skip_ws]. 
  change (JSON.is_ws JSON.dquote) with false. cbv iota.
  change (Ascii.eqb JSON.dquote JSON.dquote) with true. cbv iota.
  rewrite parse_chars_escape. reflexivity.
Qed.

Lemma concat_cons (sep x : string) (l : list string) :
  l <> [] -> String.concat sep (x :: l) = x ++ sep ++ String.concat sep l.
Proof. destruct l; [contradiction | reflexivity]. Qed.

Lemma parse_members_simple (members : list (string * JSON.value)) :
  members <> [] -> Forall (fun m => simple_value (snd m)) members ->
  forall k rest,
    JSON.parse_members (S (length members + k))
      (String.concat "," (map member_text members) ++ String "}"%char rest)
    = Some (members, rest).
Proof.
  induction members as [|[key v] members IH]; intros Hne Hall k rest; [contradiction|].
  inversion Hall as [|m ms Hv Hrest]; subst. cbn [snd] in Hv.
  destruct members as [|m' members'].
  - cbn [map String.concat length Nat.add]. unfold member_text. cbn [fst snd].
    rewrite !append_assoc. rewrite parse_members_step.
    rewrite (parse_value_simple _ v "}"%char rest Hv (or_intror eq_refl)).
    reflexivity.
  - assert (Hne' : m' :: members' <> []) by discriminate.
    specialize (IH Hne' Hrest k rest).
    change (map member_text ((key, v) :: m' :: members'))
      with (member_text (key, v) :: map member_text (m' :: members')).
    rewrite concat_cons by discriminate.
    unfold member_text at 1. cbn [fst snd]. rewrite !append_assoc.
    change (length ((key, v) :: m' :: members') + k)%nat
      with (S (length (m' :: members') + k)).
    rewrite parse_members_step. cbn [append].
    rewrite (parse_value_simple _ v ","%char _ Hv (or_introl eq_refl)).
    cbn [JSON.skip_ws]. change (JSON.is_ws ",") with false. cbv iota.
    rewrite IH. reflexivity.
Qed.

Lemma member_text_length (m : string * JSON.value) : (1 <= String.length (member_text m))%nat.
Proof. unfold member_text, JSON.quote. cbn [append String.length]. lia. Qed.

Lemma members_text_length (members : list (string * JSON.value)) :
  (length members <= String.length (String.concat "," (map member_text members)))%nat.
Proof.
  induction members as [|m members IH]; [cbn; lia|].
  destruct members as [|m' members'].
  - cbn [map String.concat length]. apply member_text_length.
  - change (map member_text (m :: m' :: members'))
      with (member_text m :: map member_text (m' :: members')).
    rewrite concat_cons by discriminate.
    rewrite !append_length. pose proof (member_text_length m).
    cbn [length] in *. lia.
Qed.

(** [JSON.parse] reads back an object [JSON.stringify] wrote, when the
    members are strings, [null] or [-1]. *)
Lemma parse_stringify_object (members : list (string * JSON.value)) :
  members <> [] -> Forall (fun m => simple_value (snd m)) members ->
  JSON.parse (JSON.stringify (JSON.Object members)) = Some (JSON.Object members).
Proof.
  intros Hne Hall. unfold JSON.parse.
  assert (Htext : JSON.stringify (JSON.Object members)
                  = String "{"%char (String.concat "," (map member_text members) ++ String "}"%char "")).
  { reflexivity. }
  rewrite Htext.
  assert (Hfuel : exists k, String.length (String.concat "," (map member_text members)
                                            ++ String "}"%char "")
                            = (length members + k)%nat).
  { rewrite append_length. cbn [String.length].
    pose proof (members_text_length members) as H.
    exists (String.length (String.concat "," (map member_text members)) + 1 - length members)%nat.
    lia. }
  destruct Hfuel as [k Hk].
  cbn [String.length]. rewrite Hk.
  pose proof (parse_members_simple members Hne Hall k "") as Hm.
  destruct members as [|[key v] members']; [contradiction|].
  cbn [JSON.parse_value JSON.skip_ws]. change (JSON.is_ws "{") with false. cbv iota.
  change (Ascii.eqb "{" "{") with true. cbv iota.
  assert (Hq : exists t, String.concat "," (map member_text ((key, v) :: members'))
                         ++ String "}"%char "" = String JSON.dquote t).
  { destruct members'; cbn [map String.concat]; unfold member_text at 1, JSON.quote;
      cbn [append fst]; eexists; reflexivity. }
  destruct Hq as [t Hq]. rewrite Hq in *.
  cbn [JSON.skip_ws]. change (JSON.is_ws JSON.dquote) with false. cbv iota.
  rewrite Hm. reflexivity.
Qed.

(** * The already-reported set *)

Lemma entry_value_simple (entry : LogEntry) :
  exitCode entry = None \/ exitCode entry = Some (-1)%Z ->
  exists members,
    entry_value entry = JSON.Object members /\ members <> []
    /\ Forall (fun m => simple_value (snd m)) members.
Proof.
  intros Hx. unfold entry_value. eexists. split; [reflexivity|]. split.
  - destruct (user entry); discriminate.
  - assert (Hc : simple_value match exitCode entry with
                               | Some n => JSON.Number (number_to_string n)
                               | None => JSON.Null
                               end)
      by (destruct Hx as [-> | ->]; [exact I | reflexivity]).
    destruct (user entry); cbn [app]; repeat constructor; exact Hc.
Qed.

Lemma parse_stringify_entry (entry : LogEntry) :
  exitCode entry = None \/ exitCode entry = Some (-1)%Z ->
  JSON.parse (JSON.stringify (entry_value entry)) = Some (entry_value entry).
Proof.
  intros Hx. destruct (entry_value_simple entry Hx) as (members & -> & Hne & Hall).
  now apply parse_stringify_object.
Qed.

Lemma entry_value_command (entry : LogEntry) :
  JSON.get (entry_value entry) "command" = Some (JSON.Str (command entry)).
Proof. unfold entry_value. destruct (user entry); reflexivity. Qed.

Lemma prefix_append (p s : string) : String.prefix p (p ++ s) = true.
Proof.
  induction p as [|c p IH]; cbn; [now destruct s|].
  destruct (ascii_dec c c); [exact IH | contradiction].
Qed.

Lemma includes_at_start (p s : string) : includes (p ++ s) p = true.
Proof.
  pose proof (prefix_append p s) as H.
  destruct (p ++ s); cbn [includes]; rewrite H; reflexivity.
Qed.


Lemma all_chars_append (q : ascii -> bool) (a b : string) :
  all_chars q (a ++ b) = all_chars q a && all_chars q b.
Proof. induction a as [|x a IH]; cbn; [reflexivity | now rewrite IH, andb_assoc]. Qed.

(** The search for [commit ] skips a prefix in which no [c] occurs. *)
Lemma match_commit_skip (p s : string) :
  all_chars not_c p = true -> match_commit (p ++ s) = match_commit s.
Proof.
  induction p as [|x p IH]; intros H; [reflexivity|].
  cbn [all_chars] in H. apply andb_true_iff in H as [Hx Hp].
  cbn [append match_commit].
  assert (Hpre : String.prefix "commit " (String x (p ++ s)) = false).
  { cbn [String.prefix]. destruct (ascii_dec "c" x) as [<-|]; [discriminate Hx | reflexivity]. }
  rewrite Hpre. cbn [andb]. now apply IH.
Qed.

Lemma substring_0_append (h rest : string) : substring 0 (String.length h) (h ++ rest) = h.
Proof.
  induction h as [|c h IH]; cbn; [now destruct rest | now rewrite IH].
Qed.

Lemma match_commit_here (h rest : string) :
  String.length h = 7%nat -> all_chars is_hex_lower h = true ->
  match_commit ("commit " ++ h ++ rest) = Some h.
Proof.
  intros Hl Hh.
  assert (Hg : substring 7 7 ("commit " ++ h ++ rest) = h).
  { cbn [append substring]. rewrite <- Hl at 1. apply substring_0_append. }
  pose proof (prefix_append "commit " (h ++ rest)) as Hp.
  change (match_commit ("commit " ++ h ++ rest))
    with (if String.prefix "commit " ("commit " ++ h ++ rest)
             && (String.length (substring 7 7 ("commit " ++ h ++ rest)) =? 7)%nat
             && all_chars is_hex_lower (substring 7 7 ("commit " ++ h ++ rest))
          then Some (substring 7 7 ("commit " ++ h ++ rest))
          else match_commit (drop_first ("commit " ++ h ++ rest))).
  rewrite Hp, Hg, Hl, Hh. reflexivity.
Qed.

Lemma uint_chars_not_c (d : Decimal.uint) : all_chars not_c (NilEmpty.string_of_uint d) = true.
Proof. induction d; cbn; auto. Qed.

Lemma number_chars_not_c (n : Z) : all_chars not_c (number_to_string n) = true.
Proof.
  unfold number_to_string, NilZero.string_of_int, NilZero.string_of_uint.
  destruct (Z.to_int n) as [d|d]; destruct d; try reflexivity;
    cbn [all_chars]; try apply (uint_chars_not_c (_ d)); cbn;
    try apply uint_chars_not_c.
Qed.

Lemma substring_0_length (n : nat) (s : string) :
  (n <= String.length s)%nat -> String.length (substring 0 n s) = n.
Proof.
  revert s. induction n as [|n IH]; intros s H.
  - now destruct s.
  - destruct s as [|c s]; cbn in *; [lia|]. rewrite IH; [reflexivity | lia].
Qed.

Lemma substring_0_all_chars (q : ascii -> bool) (n : nat) (s : string) :
  all_chars q s = true -> all_chars q (substring 0 n s) = true.
Proof.
  revert s. induction n as [|n IH]; intros s H.
  - now destruct s.
  - destruct s as [|c s]; cbn in *; [reflexivity|].
    apply andb_true_iff in H as [-> H]. now apply IH.
Qed.

Lemma short_hash_spec (info : TamperInfo.t) :
  is_object_name (TamperInfo.hash info) = true ->
  String.length (short_hash info) = 7%nat /\ all_chars is_hex_lower (short_hash info) = true.
Proof.
  unfold is_object_name, short_hash. intros H. apply andb_true_iff in H as [Hl Hh].
  apply Nat.leb_le in Hl. split.
  - now apply substring_0_length.
  - now apply substring_0_all_chars.
Qed.

(** The command of a tamper warning is recognised: the marker is found and
    the expression captures the short hash. *)
Lemma warning_command_recognised (info : TamperInfo.t) :
  is_object_name (TamperInfo.hash info) = true ->
  let command := "[TAMPERING DETECTED] " ++ number_to_string (TamperInfo.deletions info)
                 ++ " log entries deleted in commit " ++ substring 0 7 (TamperInfo.hash info)
                 ++ " by " ++ TamperInfo.author info in
  includes command "[TAMPERING DETECTED]" = true
  /\ match_commit command = Some (short_hash info).
Proof.
  intros Hn command. destruct (short_hash_spec info Hn) as [Hl Hh]. split.
  - subst command.
    change "[TAMPERING DETECTED] " with ("[TAMPERING DETECTED]" ++ " ").
    rewrite append_assoc. apply includes_at_start.
  - subst command. fold (short_hash info).
    change " log entries deleted in commit " with (" log entries deleted in " ++ "commit ").
    rewrite (append_assoc " log entries deleted in " "commit ").
    rewrite <- (append_assoc (number_to_string (TamperInfo.deletions info))).
    rewrite <- (append_assoc "[TAMPERING DETECTED] ").
    rewrite match_commit_skip.
    + now apply match_commit_here.
    + rewrite !all_chars_append, number_chars_not_c. reflexivity.
Qed.

(** A record that [logTamperingWarning] encrypted reports its commit. *)
Lemma logged_commit_warning (CONFIG : Config) (i : Z) (salt iv : Buffer) (entry : LogEntry)
  (info : TamperInfo.t) :
  length salt = 16%nat -> length iv = 16%nat ->
  is_object_name (TamperInfo.hash info) = true ->
  command entry
  = "[TAMPERING DETECTED] " ++ number_to_string (TamperInfo.deletions info)
    ++ " log entries deleted in commit " ++ substring 0 7 (TamperInfo.hash info)
    ++ " by " ++ TamperInfo.author info ->
  exitCode entry = Some (-1)%Z ->
  logged_commit CONFIG
    {| id := i; encrypted := encrypt_with CONFIG salt iv (JSON.stringify (entry_value entry)) |}
  = Some (short_hash info).
Proof.
  intros Hs Hi Hn Hc Hx. unfold logged_commit. cbn [encrypted].
  rewrite (decrypt_encrypt_with CONFIG salt iv _ Hs Hi).
  rewrite (parse_stringify_entry entry (or_intror Hx)).
  rewrite entry_value_command, Hc.
  destruct (warning_command_recognised info Hn) as [-> ->]. reflexivity.
Qed.

Lemma Set_has_add (s : list string) (x y : string) :
  Set_has (Set_add s x) y = Set_has s y || String.eqb y x.
Proof.
  unfold Set_add. destruct (Set_has s x) eqn:E.
  - destruct (String.eqb_spec y x) as [->|]; [now rewrite E | now rewrite orb_false_r].
  - unfold Set_has. rewrite existsb_app. cbn. now rewrite orb_false_r.
Qed.

Lemma logged_set_has (CONFIG : Config) (logs : list EncryptedRecord) :
  forall acc x,
    Set_has (logged_set CONFIG logs acc) x = true
    <-> (Set_has acc x = true \/ exists log, In log logs /\ logged_commit CONFIG log = Some x).
Proof.
  induction logs as [|log logs IH]; intros acc x.
  - cbn. split; [now left | intros [H | (l & [] & _)]; exact H].
  - change (logged_set CONFIG (log :: logs) acc)
      with (logged_set CONFIG logs
              match logged_commit CONFIG log with
              | Some h => Set_add acc h
              | None => acc
              end).
    rewrite IH. split.
    + intros [H | (l & Hin & Hl)].
      * destruct (logged_commit CONFIG log) as [h|] eqn:E; [|now left].
        rewrite Set_has_add in H. apply orb_true_iff in H as [H | H]; [now left|].
        apply String.eqb_eq in H. subst h. right. exists log. split; [now left | exact E].
      * right. exists l. split; [now right | exact Hl].
    + intros [H | (l & [<- | Hin] & Hl)].
      * left. destruct (logged_commit CONFIG log); [|exact H].
        rewrite Set_has_add, H. reflexivity.
      * left. rewrite Hl, Set_has_add, String.eqb_refl. apply orb_true_r.
      * right. now exists l.
Qed.

Lemma getLoggedTamperCommits_spec (CONFIG : Config) (w : World) :
  getLoggedTamperCommits CONFIG w
  = (Continue (logged_set CONFIG (store_logs (log_file w)) []), w).
Proof. unfold getLoggedTamperCommits. destruct (log_file w); reflexivity. Qed.

Lemma appended_store w w' rs :
  appended w w' rs -> store_logs (log_file w') = (store_logs (log_file w) ++ rs)%list.
Proof.
  intros (_ & _ & _ & L). rewrite L. destruct rs; [now rewrite app_nil_r | reflexivity].
Qed.

(** The loop of step 4: every commit that is not in the already-reported
    set leaves a record that reports it. *)
Lemma report_loop_records CONFIG env already (infos : list TamperInfo.t) :
  forall w, exists rs w',
    for_each infos
      (fun tamperInfo =>
         if negb (Set_has already (substring 0 7 (TamperInfo.hash tamperInfo)))
         then bind (logTamperingWarning CONFIG env tamperInfo) (fun warningEntry => saveToRepo warningEntry)
         else ret tt) w
    = (Continue tt, w')
    /\ appended w w' rs
    /\ forall info, In info infos -> is_object_name (TamperInfo.hash info) = true ->
         Set_has already (short_hash info) = true
         \/ exists r, In r rs /\ logged_commit CONFIG r = Some (short_hash info).
Proof.
  induction infos as [|info infos IH]; intros w; cbn [for_each].
  - exists [], w. split; [reflexivity|]. split; [apply appended_refl | intros ? []].
  - unfold bind at 1. fold (short_hash info).
    destruct (Set_has already (short_hash info)) eqn:Ehas; cbn [negb].
    + unfold ret at 1. destruct (IH w) as (rs & w3 & E3 & A3 & R3).
      exists rs, w3. split; [exact E3|]. split; [exact A3|].
      intros x [<- | Hin] Hn; [now left | now apply R3].
    + unfold bind at 1.
      destruct (logTamperingWarning_appended CONFIG env info w)
        as (salt & iv & w1 & entry & E1 & Hs & Hi & A1 & Hc & Hx).
      rewrite E1.
      destruct (saveToRepo_appended (encrypt_with CONFIG salt iv (JSON.stringify (entry_value entry))) w1)
        as (w2 & E2 & A2).
      rewrite E2.
      destruct (IH w2) as (rs & w3 & E3 & A3 & R3). rewrite E3.
      eexists _, w3. split; [reflexivity|]. split.
      * exact (appended_trans _ _ _ _ _ (appended_trans _ _ _ _ _ A1 A2) A3).
      * intros x [<- | Hin] Hn.
        -- right. eexists. split; [cbn [app]; left; reflexivity|].
           now apply logged_commit_warning.
        -- destruct (R3 x Hin Hn) as [H | (r & Hr & Hl)]; [now left|].
           right. exists r. split; [cbn [app]; now right | exact Hl].
Qed.

(** The loop does nothing when every commit is in the already-reported set. *)
Lemma report_loop_skips CONFIG env already (infos : list TamperInfo.t) (w : World) :
  (forall info, In info infos -> Set_has already (short_hash info) = true) ->
  for_each infos
    (fun tamperInfo =>
       if negb (Set_has already (substring 0 7 (TamperInfo.hash tamperInfo)))
       then bind (logTamperingWarning CONFIG env tamperInfo) (fun warningEntry => saveToRepo warningEntry)
       else ret tt) w
  = (Continue tt, w).
Proof.
  induction infos as [|info infos IH]; intros H; cbn [for_each]; [reflexivity|].
  unfold bind at 1. fold (short_hash info).
  rewrite (H info (or_introl eq_refl)). cbn [negb]. unfold ret at 1.
  apply IH. intros x Hin. apply H. now right.
Qed.

Lemma report_tampering_unfold CONFIG env w :
  repo_dir w = true ->
  report_tampering CONFIG env w
  = (if (0 <? length (tampered env w))%nat
     then for_each (tampered env w)
            (fun tamperInfo =>
               if negb (Set_has (logged_set CONFIG (store_logs (log_file w)) [])
                          (substring 0 7 (TamperInfo.hash tamperInfo)))
               then bind (logTamperingWarning CONFIG env tamperInfo)
                         (fun warningEntry => saveToRepo warningEntry)
               else ret tt)
     else ret tt) w.
Proof.
  intros Hdir.
  unfold report_tampering. unfold bind at 1. rewrite (checkForTampering_spec env w Hdir).
  unfold bind at 1. rewrite getLoggedTamperCommits_spec. reflexivity.
Qed.

Lemma suspicious_object_name env commit info :
  In info (suspicious env commit) -> TamperInfo.hash info = Commit.hash commit.
Proof.
  unfold suspicious. destruct (git_show env (Commit.hash commit)) as [diff|]; [|intros []].
  destruct (_ >? _)%Z; [|intros []]. intros [<- | []]. reflexivity.
Qed.

Lemma tampered_same_history env env' w w' :
  git_log env' = git_log env -> (forall h, git_show env' h = git_show env h) ->
  git_dir w' = git_dir w -> tampered env' w' = tampered env w.
Proof.
  intros Hl Hs Hg. unfold tampered. rewrite Hg, Hl.
  destruct (git_dir w); [|reflexivity]. destruct (git_log env) as [all|]; [|reflexivity].
  assert (Hc : forall c, suspicious env' c = suspicious env c)
    by (intros c; unfold suspicious; now rewrite Hs).
  clear Hl. induction all as [|c all IH]; cbn [flat_map]; [reflexivity|].
  now rewrite IH, Hc.
Qed.

Lemma tampered_object_names env w :
  (forall all commit, git_log env = Some all -> In commit all ->
     is_object_name (Commit.hash commit) = true) ->
  forall info, In info (tampered env w) -> is_object_name (TamperInfo.hash info) = true.
Proof.
  intros Hn info. unfold tampered. destruct (git_dir w); [|intros []].
  destruct (git_log env) as [all|] eqn:El; [|intros []].
  intros Hin. apply in_flat_map in Hin as (commit & Hc & Hi).
  rewrite (suspicious_object_name env commit info Hi). now apply (Hn all).
Qed.

(** C5: after one run of the scan-and-report step in the log directory, a
    second run over the same commit history, on a store that still begins
    with the records the first run left, recognises every suspicious commit
    in the already-reported set and appends nothing: it returns with the
    world as it found it. *)
Theorem report_tampering_idempotent (CONFIG : Config) (env env' : Env) (w w2 : World)
  (Hdir : repo_dir w = true) (Hdir2 : repo_dir w2 = true)
  (Hlog : git_log env' = git_log env)
  (Hshow : forall h, git_show env' h = git_show env h)
  (Hnames : forall all commit, git_log env = Some all -> In commit all ->
              is_object_name (Commit.hash commit) = true)
  (Hgit : git_dir w2 = git_dir w)
  (Hkept : exists later,
      store_logs (log_file w2)
      = (store_logs (log_file (snd (report_tampering CONFIG env w))) ++ later)%list) :
  fst (report_tampering CONFIG env w) = Continue tt
  /\ (forall info, In info (tampered env' w2) ->
        Set_has (logged_set CONFIG (store_logs (log_file w2)) []) (short_hash info) = true)
  /\ report_tampering CONFIG env' w2 = (Continue tt, w2).
Proof.
  destruct Hkept as (later & Hkept).
  assert (Hsame : tampered env' w2 = tampered env w) by now apply tampered_same_history.
  rewrite (report_tampering_unfold CONFIG env w Hdir) in Hkept |- *.
  assert (Hrun : exists rs w1,
             (if (0 <? length (tampered env w))%nat
              then for_each (tampered env w)
                     (fun tamperInfo =>
                        if negb (Set_has (logged_set CONFIG (store_logs (log_file w)) [])
                                   (substring 0 7 (TamperInfo.hash tamperInfo)))
                        then bind (logTamperingWarning CONFIG env tamperInfo)
                                  (fun warningEntry => saveToRepo warningEntry)
                        else ret tt)
              else ret tt) w = (Continue tt, w1)
             /\ appended w w1 rs
             /\ forall info, In info (tampered env w) ->
                  is_object_name (TamperInfo.hash info) = true ->
                  Set_has (logged_set CONFIG (store_logs (log_file w)) []) (short_hash info) = true
                  \/ exists r, In r rs /\ logged_commit CONFIG r = Some (short_hash info)).
  { destruct (0 <? length (tampered env w))%nat eqn:E.
    - apply report_loop_records.
    - exists [], w. split; [reflexivity|]. split; [apply appended_refl|].
      apply Nat.ltb_ge in E. destruct (tampered env w); [intros ? [] | cbn in E; lia]. }
  destruct Hrun as (rs & w1 & E1 & A1 & R1).
  rewrite E1 in Hkept |- *. cbn [fst snd] in Hkept.
  split; [reflexivity|].
  assert (Hall : forall info, In info (tampered env' w2) ->
            Set_has (logged_set CONFIG (store_logs (log_file w2)) []) (short_hash info) = true).
  { intros info Hin. rewrite Hsame in Hin.
    apply logged_set_has. right.
    rewrite Hkept, (appended_store w w1 rs A1).
    destruct (R1 info Hin (tampered_object_names env w Hnames info Hin)) as [H | (r & Hr & Hl)].
    - apply logged_set_has in H as [H | (log & Hlog' & Hl)]; [discriminate H|].
      exists log. split; [|exact Hl]. apply in_or_app. left. apply in_or_app. now left.
    - exists r. split; [|exact Hl]. apply in_or_app. left. apply in_or_app. now right. }
  split; [exact Hall|].
  rewrite (report_tampering_unfold CONFIG env' w2 Hdir2).
  destruct (0 <? length (tampered env' w2))%nat; [|reflexivity].
  now apply report_loop_skips.
Qed.

Lemma report_tampering_idempotent_witness :
  (forall all commit, git_log (sample_env "y" true true) = Some all -> In commit all ->
     is_object_name (Commit.hash commit) = true)
  /\ tampered (sample_env "y" true true) sample_world
     = [tamper_record sample_commit 2]
  /\ report_tampering (sample_config "secret") (sample_env "y" true true)
       (snd (report_tampering (sample_config "secret") (sample_env "y" true true) sample_world))
     = (Continue tt,
        snd (report_tampering (sample_config "secret") (sample_env "y" true true) sample_world)).
Proof.
  assert (Hnames : forall all commit,
             git_log (sample_env "y" true true) = Some all -> In commit all ->
             is_object_name (Commit.hash commit) = true).
  { intros all commit [= <-] [<- | []]. reflexivity. }
  split; [exact Hnames|]. split; [vm_compute; reflexivity|].
  destruct (report_tampering_appended (sample_config "secret") (sample_env "y" true true)
              sample_world eq_refl) as (rs & w' & E & (_ & D & G & _)).
  refine (proj2 (proj2 (report_tampering_idempotent (sample_config "secret")
            (sample_env "y" true true) (sample_env "y" true true) sample_world
            (snd (report_tampering (sample_config "secret") (sample_env "y" true true) sample_world))
            eq_refl _ eq_refl (fun h => eq_refl) Hnames _ (ex_intro _ [] (eq_sym (app_nil_r _)))))).
  - rewrite E. exact (D eq_refl).
  - rewrite E. exact G.
Defined.
(** * The log entries and the run after the pull *)

Lemma createLogEntry_spec CONFIG env command w :
  createLogEntry CONFIG env command w
  = (Continue
       (encrypt_with CONFIG
          (NodeCrypto.randomBytes (entropy env) (random_pos w) 16)
          (NodeCrypto.randomBytes (entropy env) (random_pos w + 16) 16)
          (JSON.stringify (entry_value (command_entry env (clock env (clock_pos w)) command)))),
     {| repo_dir := repo_dir w; git_dir := git_dir w; log_file := log_file w;
        index_html := index_html w; nojekyll := nojekyll w;
        random_pos := (random_pos w + 16 + 16)%nat; clock_pos := S (clock_pos w);
        trace := trace w |}).
Proof. reflexivity. Qed.

Lemma logTamperingWarning_spec CONFIG env info w :
  logTamperingWarning CONFIG env info w
  = (Continue
       (encrypt_with CONFIG
          (NodeCrypto.randomBytes (entropy env) (random_pos w) 16)
          (NodeCrypto.randomBytes (entropy env) (random_pos w + 16) 16)
          (JSON.stringify (entry_value (warning_entry env (clock env (clock_pos w)) info)))),
     {| repo_dir := repo_dir w; git_dir := git_dir w; log_file := log_file w;
        index_html := index_html w; nojekyll := nojekyll w;
        random_pos := (random_pos w + 16 + 16)%nat; clock_pos := S (clock_pos w);
        trace := trace w |}).
Proof. reflexivity. Qed.

(** A blob [encrypt] made of an entry reads back as the entry. *)
Lemma read_record_entry CONFIG (i : Z) (salt iv : Buffer) (entry : LogEntry) :
  length salt = 16%nat -> length iv = 16%nat ->
  exitCode entry = None \/ exitCode entry = Some (-1)%Z ->
  read_record CONFIG
    {| id := i; encrypted := encrypt_with CONFIG salt iv (JSON.stringify (entry_value entry)) |}
  = Some (entry_value entry).
Proof.
  intros Hs Hi Hx. unfold read_record. cbn [encrypted].
  rewrite (decrypt_encrypt_with CONFIG salt iv _ Hs Hi).
  now apply parse_stringify_entry.
Qed.





Lemma saved_events (rs : list EncryptedRecord) : filter is_saved (map Saved rs) = map Saved rs.
Proof. induction rs as [|r rs IH]; [reflexivity | cbn; now rewrite IH]. Qed.







(** X4: an invocation only appends to the log file: behind the records the
    file had, or the records the pull left when the pull was reached, it
    adds the records of its [Saved] events, in their order, and it removes
    or rewrites none; an invocation without a [Saved] event leaves the file
    as it was or as the pull left it. *)
Theorem main_appends_only (CONFIG : Config) (env : Env) (w : World) :
  let w' := snd (main CONFIG env w) in
  exists events records base,
    trace w' = (trace w ++ events)%list
    /\ filter is_saved events = map Saved records
    /\ (base = log_file w \/ base = pulled_file env w)
    /\ store_logs (log_file w') = (store_logs base ++ records)%list
    /\ (records = [] -> log_file w' = base).
Proof.
  intros w'. subst w'.
  destruct (main_cases CONFIG env w) as (C1 & C2 & C3 & C4 & C5).
  destruct (argv env) as [|a args] eqn:Eargs.
  { exists [], [], (log_file w). rewrite (C1 eq_refl). cbn [snd].
    rewrite !app_nil_r. repeat split. now left. }
  assert (Hne : a :: args <> []) by discriminate.
  destruct (affirmative env) eqn:Eyes.
  2:{ destruct (C2 Hne eq_refl) as (_ & T & L).
      eexists _, [], (log_file w). split; [exact T|]. rewrite L, app_nil_r.
      repeat split. now left. }
  destruct (repo_dir w) eqn:Edir.
  2:{ destruct (C3 Hne eq_refl eq_refl) as (_ & T & L).
      eexists _, [], (log_file w). split; [exact T|]. rewrite L, app_nil_r.
      repeat split. now left. }
  destruct (pull_succeeds env w) eqn:Epull.
  2:{ destruct (C4 Hne eq_refl eq_refl eq_refl) as (_ & T & L).
      eexists _, [], (pulled_file env w). split; [exact T|]. rewrite L, app_nil_r.
      repeat split. now right. }
  destruct (C5 Hne eq_refl eq_refl eq_refl) as (rs & Hrs & T & L & _).
  eexists _, rs, (pulled_file env w). split; [exact T|]. split.
  - cbn [app filter is_saved]. rewrite filter_app, saved_events.
    destruct (push_succeeds env); cbn [app filter is_saved]; now rewrite app_nil_r.
  - split; [now right|]. rewrite L. split; [reflexivity|]. intros ->. now contradiction Hrs.
Qed.
(** * Invariants of the log file *)

Lemma keeps_ret {A} (P : LogFile -> Prop) (a : A) (Q : A -> Prop) : Q a -> keeps P (ret a) Q.
Proof. intros H w Hw. split; [exact Hw|]. intros a' [= <-]. exact H. Qed.

Lemma keeps_exit {A} (P : LogFile -> Prop) (code : Z) (Q : A -> Prop) :
  keeps P (process_exit code) Q.
Proof. intros w Hw. split; [exact Hw | intros a [=]]. Qed.

Lemma keeps_bind {A B} (P : LogFile -> Prop) (m : Proc A) (k : A -> Proc B)
  (Q : A -> Prop) (R : B -> Prop) :
  keeps P m Q -> (forall a, Q a -> keeps P (k a) R) -> keeps P (bind m k) R.
Proof.
  intros Hm Hk w Hw. destruct (Hm w Hw) as [Hp Hq]. unfold bind.
  destruct (m w) as [[a| | |] w1]; cbn [fst snd] in *;
    try (split; [exact Hp | intros b [=]]).
  exact (Hk a (Hq a eq_refl) w1 Hp).
Qed.

Lemma keeps_weaken {A} (P : LogFile -> Prop) (m : Proc A) (Q Q' : A -> Prop) :
  keeps P m Q -> (forall a, Q a -> Q' a) -> keeps P m Q'.
Proof.
  intros Hm Hq w Hw. destruct (Hm w Hw) as [Hp Ha]. split; [exact Hp|].
  intros a E. exact (Hq a (Ha a E)).
Qed.

Lemma keeps_for_each {A} (P : LogFile -> Prop) (xs : list A) (body : A -> Proc unit) :
  (forall x, In x xs -> keeps P (body x) (fun _ => True)) ->
  keeps P (for_each xs body) (fun _ => True).
Proof.
  induction xs as [|x xs IH]; intros H; cbn [for_each].
  - now apply keeps_ret.
  - apply (keeps_bind P _ _ (fun _ => True)); [apply H; now left|].
    intros _ _. apply IH. intros y Hy. apply H. now right.
Qed.

(** A procedure that does not write the log file keeps every property of it. *)
Lemma keeps_frame {A} (P : LogFile -> Prop) (m : Proc A) :
  (forall w, log_file (snd (m w)) = log_file w) -> keeps P m (fun _ => True).
Proof. intros H w Hw. rewrite H. split; [exact Hw | trivial]. Qed.

Lemma simpleGit_frame w : log_file (snd (simpleGit w)) = log_file w.
Proof. unfold simpleGit. now destruct (repo_dir w). Qed.

Lemma checkForTampering_frame env w : log_file (snd (checkForTampering env w)) = log_file w.
Proof.
  unfold checkForTampering, bind, simpleGit. destruct (repo_dir w); [|reflexivity].
  destruct (negb (git_dir w)); [reflexivity|]. now destruct (git_log env).
Qed.

Lemma getLoggedTamperCommits_frame CONFIG w :
  log_file (snd (getLoggedTamperCommits CONFIG w)) = log_file w.
Proof. unfold getLoggedTamperCommits. destruct (log_file w) eqn:E; exact E. Qed.

Lemma pushToGitHub_frame env w : log_file (snd (pushToGitHub env w)) = log_file w.
Proof. unfold pushToGitHub, bind, simpleGit. now destruct (repo_dir w). Qed.

Lemma execSudo_frame env args w : log_file (snd (execSudo env args w)) = log_file w.
Proof. unfold execSudo, bind, emit. now destruct (sudo_exit env). Qed.

Lemma continue_inj {A} (a b : A) : Continue a = Continue b -> a = b.
Proof. intros E. now injection E. Qed.

Lemma continue_inj_some {A} (a b : A) : Some a = Some b -> a = b.
Proof. intros E. now injection E. Qed.

(** What [encrypt] returns can be decrypted. *)
Lemma keeps_encrypt CONFIG env (P : LogFile -> Prop) (text : string) :
  keeps P (encrypt CONFIG env text) (fun blob => decrypt CONFIG blob = Some text).
Proof.
  intros w Hw. destruct (encrypt_returns CONFIG env text w) as (salt & iv & w1 & E & Hs & Hi & L & _).
  rewrite E. cbn [fst snd]. rewrite L. split; [exact Hw|].
  intros a [= <-]. now apply decrypt_encrypt_with.
Qed.

Lemma keeps_createLogEntry CONFIG env (P : LogFile -> Prop) (command : string) :
  keeps P (createLogEntry CONFIG env command) (reads_back CONFIG).
Proof.
  intros w Hw. rewrite createLogEntry_spec. cbn [fst snd log_file]. split; [exact Hw|].
  intros a E i. apply continue_inj in E. subst a.
  rewrite read_record_entry; [discriminate | apply randomBytes_length .. | now left].
Qed.

Lemma keeps_logTamperingWarning CONFIG env (P : LogFile -> Prop) (info : TamperInfo.t) :
  keeps P (logTamperingWarning CONFIG env info) (reads_back CONFIG).
Proof.
  intros w Hw. rewrite logTamperingWarning_spec. cbn [fst snd log_file]. split; [exact Hw|].
  intros a E i. apply continue_inj in E. subst a.
  rewrite read_record_entry; [discriminate | apply randomBytes_length .. | now right].
Qed.

Lemma keeps_report_tampering CONFIG env (P : LogFile -> Prop) :
  (forall blob, reads_back CONFIG blob -> keeps P (saveToRepo blob) (fun _ => True)) ->
  keeps P (report_tampering CONFIG env) (fun _ => True).
Proof.
  intros Hsave. unfold report_tampering.
  apply (keeps_bind P _ _ (fun _ => True)); [apply keeps_frame, checkForTampering_frame|].
  intros found _.
  apply (keeps_bind P _ _ (fun _ => True)); [apply keeps_frame, getLoggedTamperCommits_frame|].
  intros already _. destruct (0 <? length found)%nat; [|now apply keeps_ret].
  apply keeps_for_each. intros info _.
  destruct (negb (Set_has already (substring 0 7 (TamperInfo.hash info)))); [|now apply keeps_ret].
  apply (keeps_bind P _ _ (reads_back CONFIG)); [apply keeps_logTamperingWarning | exact Hsave].
Qed.

Lemma keeps_pullFromGitHub env (P : LogFile -> Prop) :
  (forall f, P f -> P (snd (git_pull env f))) ->
  (forall f, git_clone env = Some f -> P f) ->
  keeps P (pullFromGitHub env) (fun _ => True).
Proof.
  intros Hp Hc w Hw. unfold pullFromGitHub, bind, simpleGit.
  destruct (repo_dir w); [|split; [exact Hw | intros a [=]]].
  destruct (git_dir w); cbn [negb].
  - specialize (Hp _ Hw). destruct (git_pull env (log_file w)) as [ok f].
    split; [exact Hp | trivial].
  - destruct (git_clone env) as [f|] eqn:E; (split; [|trivial]).
    + exact (Hc f eq_refl).
    + exact Hw.
Qed.

(** A property of the log file that git and [saveToRepo] keep is kept by [main]. *)
Lemma keeps_main CONFIG env (P : LogFile -> Prop) :
  (forall f, P f -> P (snd (git_pull env f))) ->
  (forall f, git_clone env = Some f -> P f) ->
  (forall blob, reads_back CONFIG blob -> keeps P (saveToRepo blob) (fun _ => True)) ->
  keeps P (main CONFIG env) (fun _ => True).
Proof.
  intros Hp Hc Hsave. unfold main.
  destruct (length (argv env) =? 0)%nat; [apply keeps_exit|].
  apply (keeps_bind P _ _ (fun _ => True)); [apply keeps_frame; reflexivity|].
  intros confirmed _. destruct (negb confirmed); [apply keeps_exit|].
  apply (keeps_bind P _ _ (fun _ => True)); [now apply keeps_pullFromGitHub|].
  intros pullSuccess _. destruct (negb pullSuccess); [apply keeps_exit|].
  apply (keeps_bind P _ _ (fun _ => True)); [now apply keeps_report_tampering|].
  intros _ _.
  apply (keeps_bind P _ _ (reads_back CONFIG)); [apply keeps_createLogEntry|].
  intros blob Hblob.
  apply (keeps_bind P _ _ (fun _ => True)); [exact (Hsave blob Hblob)|].
  intros _ _.
  apply (keeps_bind P _ _ (fun _ => True)); [apply keeps_frame; reflexivity|].
  intros _ _.
  apply (keeps_bind P _ _ (fun _ => True)); [apply keeps_frame, pushToGitHub_frame|].
  intros pushSuccess _. destruct (negb pushSuccess); [apply keeps_exit|].
  apply keeps_frame, execSudo_frame.
Qed.

Lemma numbered_from_app (first : nat) (a b : list EncryptedRecord) :
  numbered_from first (a ++ b) = numbered_from first a && numbered_from (first + length a) b.
Proof.
  revert first. induction a as [|r a IH]; intros first; cbn [app numbered_from length].
  - now rewrite Nat.add_0_r.
  - rewrite IH, andb_assoc. now rewrite Nat.add_succ_comm.
Qed.

Lemma saveToRepo_keeps_numbering (blob : string) :
  keeps (fun f => well_numbered f = true) (saveToRepo blob) (fun _ => True).
Proof.
  intros w Hw. split; [|trivial]. unfold saveToRepo. cbn [snd log_file].
  fold (store_logs (log_file w)). unfold well_numbered in *. cbn [store_logs].
  rewrite numbered_from_app, Hw. cbn [numbered_from id Nat.add]. now rewrite Z.eqb_refl.
Qed.

Lemma saveToRepo_keeps_readable CONFIG (blob : string) :
  reads_back CONFIG blob -> keeps (readable CONFIG) (saveToRepo blob) (fun _ => True).
Proof.
  intros Hblob w Hw. split; [|trivial]. unfold saveToRepo. cbn [snd log_file].
  fold (store_logs (log_file w)). intros log Hin. cbn [store_logs] in Hin.
  apply in_app_or in Hin as [Hin | [<- | []]]; [now apply Hw | apply Hblob].
Qed.

(** X5: the numbering of the log file is an invariant of an invocation: if
    the records of the file are numbered with their positions 1, 2, ..., and
    git hands back files so numbered, the file the invocation leaves is so
    numbered too, the tamper warnings and the entry it appends included. *)
Theorem main_keeps_numbering (CONFIG : Config) (env : Env) (w : World)
  (Hpull : forall f, well_numbered f = true -> well_numbered (snd (git_pull env f)) = true)
  (Hclone : forall f, git_clone env = Some f -> well_numbered f = true)
  (Hfile : well_numbered (log_file w) = true) :
  well_numbered (log_file (snd (main CONFIG env w))) = true.
Proof.
  apply (keeps_main CONFIG env (fun f => well_numbered f = true) Hpull Hclone); [|exact Hfile].
  intros blob _. apply saveToRepo_keeps_numbering.
Qed.

Lemma main_keeps_numbering_witness :
  well_numbered (log_file sample_world) = true
  /\ well_numbered
       (log_file (snd (main (sample_config "secret") (sample_env "y" true true) sample_world)))
     = true.
Proof.
  split; [reflexivity|].
  apply main_keeps_numbering.
  - intros f H. exact H.
  - intros f [= <-]. reflexivity.
  - reflexivity.
Defined.

(** X6: an invocation keeps the log file readable: if every record of the
    file, and of the files git hands back, decrypts under the password of
    the configuration and parses, so does every record of the file the
    invocation leaves: it never stores a record that cannot be read back. *)
Theorem main_keeps_store_readable (CONFIG : Config) (env : Env) (w : World)
  (Hpull : forall f, readable CONFIG f -> readable CONFIG (snd (git_pull env f)))
  (Hclone : forall f, git_clone env = Some f -> readable CONFIG f)
  (Hfile : readable CONFIG (log_file w)) :
  readable CONFIG (log_file (snd (main CONFIG env w))).
Proof.
  apply (keeps_main CONFIG env (readable CONFIG) Hpull Hclone); [|exact Hfile].
  intros blob Hblob. now apply saveToRepo_keeps_readable.
Qed.

Lemma main_keeps_store_readable_witness :
  readable (sample_config "secret") (log_file sample_world)
  /\ readable (sample_config "secret")
       (log_file (snd (main (sample_config "secret") (sample_env "y" true true) sample_world))).
Proof.
  assert (Hfile : readable (sample_config "secret") (log_file sample_world))
    by (intros log []).
  split; [exact Hfile|].
  apply main_keeps_store_readable.
  - intros f H. exact H.
  - intros f [= <-]. intros log [].
  - exact Hfile.
Defined.
(** * The scan and its warnings *)

Lemma suspicious_spec env commit info :
  In info (suspicious env commit)
  <-> exists diff,
        git_show env (Commit.hash commit) = Some diff
        /\ (fst (count_lines diff) > snd (count_lines diff) + 2)%Z
        /\ info = tamper_record commit (fst (count_lines diff) - 2).
Proof.
  unfold suspicious. destruct (git_show env (Commit.hash commit)) as [diff|].
  - destruct (Z.gtb_spec (counted_deletions diff) (counted_additions diff + 2)) as [Hgt|Hle].
    + split.
      * intros [<- | []]. exists diff. rewrite (count_lines_counted diff). cbn [fst snd].
        repeat split. lia.
      * intros (diff' & E & _ & ->). injection E as <-.
        rewrite (count_lines_counted diff). now left.
    + split; [intros []|]. intros (diff' & E & H & _). injection E as <-.
      rewrite (count_lines_counted diff) in H. cbn [fst snd] in H. lia.
  - split; [intros [] | intros (diff' & E & _); discriminate E].
Qed.

Lemma count_lines_nonnegative (diff : string) :
  (0 <= fst (count_lines diff))%Z /\ (0 <= snd (count_lines diff))%Z.
Proof.
  rewrite count_lines_counted. unfold counted_deletions, counted_additions. cbn [fst snd]. lia.
Qed.

Lemma flat_map_length_le {A B} (f : A -> list B) (l : list A) :
  (forall x, length (f x) <= 1)%nat -> (length (flat_map f l) <= length l)%nat.
Proof.
  intros H. induction l as [|x l IH]; cbn [flat_map length]; [lia|].
  rewrite length_app. specialize (H x). lia.
Qed.

Lemma suspicious_length env commit : (length (suspicious env commit) <= 1)%nat.
Proof.
  unfold suspicious. destruct (git_show env (Commit.hash commit)); [|cbn; lia].
  destruct (_ >? _)%Z; cbn; lia.
Qed.

(** X7: [checkForTampering] throws when the log directory is missing;
    otherwise it returns without changing anything, with no commit when
    there is no working copy or the history cannot be read, and each commit
    it reports is a commit of the history whose diff could be retrieved and
    has more than two deletions beyond its additions: the record copies the
    hash, author, date and message of that commit and its count of deleted
    entries is at least one.  It reports at most one record per commit. *)
Theorem checkForTampering_reports (env : Env) (w : World) :
  (repo_dir w = false -> exists error, checkForTampering env w = (Rejected error, w))
  /\ (repo_dir w = true ->
      exists found,
        checkForTampering env w = (Continue found, w)
        /\ (git_dir w = false -> found = [])
        /\ (git_log env = None -> found = [])
        /\ (forall all, git_log env = Some all -> (length found <= length all)%nat)
        /\ forall info, In info found ->
             (1 <= TamperInfo.deletions info)%Z
             /\ exists all commit diff,
                  git_log env = Some all /\ In commit all
                  /\ git_show env (Commit.hash commit) = Some diff
                  /\ (fst (count_lines diff) > snd (count_lines diff) + 2)%Z
                  /\ TamperInfo.deletions info = (fst (count_lines diff) - 2)%Z
                  /\ TamperInfo.hash info = Commit.hash commit
                  /\ TamperInfo.author info = Commit.author_name commit
                  /\ TamperInfo.date info = Commit.date commit
                  /\ TamperInfo.message info = Commit.message commit).
Proof.
  split.
  - intros Hdir. unfold checkForTampering, bind, simpleGit. rewrite Hdir. eexists. reflexivity.
  - intros Hdir. exists (tampered env w). split; [now apply checkForTampering_spec|].
    unfold tampered. split; [intros ->; reflexivity|].
    split; [intros ->; now destruct (git_dir w)|]. split.
    + intros all ->. destruct (git_dir w); [|cbn; lia].
      apply flat_map_length_le, suspicious_length.
    + intros info Hin. destruct (git_dir w); [|contradiction].
      destruct (git_log env) as [all|]; [|contradiction].
      apply in_flat_map in Hin as (commit & Hc & Hi).
      apply suspicious_spec in Hi as (diff & Hs & Hgt & ->).
      destruct (count_lines_nonnegative diff) as [_ Ha].
      split; [cbn [tamper_record TamperInfo.deletions]; lia|].
      exists all, commit, diff. repeat split; assumption.
Qed.



(** * The already-reported set, read from the store *)

Lemma match_commit_some (s g : string) :
  match_commit s = Some g -> String.length g = 7%nat /\ all_chars is_hex_lower g = true.
Proof.
  induction s as [|c r IH]; intros H; [discriminate H|].
  change (match_commit (String c r))
    with (if String.prefix "commit " (String c r)
             && (String.length (substring 7 7 (String c r)) =? 7)%nat
             && all_chars is_hex_lower (substring 7 7 (String c r))
          then Some (substring 7 7 (String c r))
          else match_commit r) in H.
  destruct (String.prefix "commit " (String c r)
            && (String.length (substring 7 7 (String c r)) =? 7)%nat
            && all_chars is_hex_lower (substring 7 7 (String c r))) eqn:E; [|exact (IH H)].
  apply continue_inj_some in H. subst g.
  apply andb_true_iff in E as [E Hh]. apply andb_true_iff in E as [_ Hl].
  apply Nat.eqb_eq in Hl. split; assumption.
Qed.

Lemma Set_has_In (s : list string) (x : string) : Set_has s x = true <-> In x s.
Proof.
  unfold Set_has. rewrite existsb_exists. split.
  - intros (y & Hin & E). apply String.eqb_eq in E. now subst y.
  - intros Hin. exists x. split; [exact Hin | apply String.eqb_refl].
Qed.

Lemma Set_add_NoDup (s : list string) (x : string) : NoDup s -> NoDup (Set_add s x).
Proof.
  intros H. unfold Set_add. destruct (Set_has s x) eqn:E; [exact H|].
  apply NoDup_app; [exact H | repeat constructor; intros [] |].
  intros y Hy [<- | []]. apply Set_has_In in Hy. rewrite Hy in E. discriminate E.
Qed.

Lemma logged_set_NoDup (CONFIG : Config) (logs : list EncryptedRecord) :
  forall acc, NoDup acc -> NoDup (logged_set CONFIG logs acc).
Proof.
  induction logs as [|log logs IH]; intros acc H; [exact H|].
  change (logged_set CONFIG (log :: logs) acc)
    with (logged_set CONFIG logs
            match logged_commit CONFIG log with
            | Some h => Set_add acc h
            | None => acc
            end).
  apply IH. destruct (logged_commit CONFIG log); [now apply Set_add_NoDup | exact H].
Qed.

(** What makes a record count as a report of the commit [h]. *)
Lemma logged_commit_spec (CONFIG : Config) (log : EncryptedRecord) (h : string) :
  logged_commit CONFIG log = Some h
  <-> exists decrypted command,
        read_record CONFIG log = Some decrypted
        /\ JSON.get decrypted "command" = Some (JSON.Str command)
        /\ includes command "[TAMPERING DETECTED]" = true
        /\ match_commit command = Some h.
Proof.
  unfold logged_commit, read_record.
  destruct (decrypt CONFIG (encrypted log)) as [text|].
  2:{ split; [intros H; discriminate H | intros (d & c & H & _); discriminate H]. }
  destruct (JSON.parse text) as [decrypted|].
  2:{ split; [intros H; discriminate H | intros (d & c & H & _); discriminate H]. }
  split.
  - intros H. destruct (JSON.get decrypted "command") as [[| | |command| |]|] eqn:Eg;
      try discriminate H.
    destruct (includes command "[TAMPERING DETECTED]") eqn:E; [|discriminate H].
    exists decrypted, command. repeat split; assumption.
  - intros (d & c & Hd & Hg & Hi & Hm). apply continue_inj_some in Hd. subst d.
    now rewrite Hg, Hi.
Qed.

(** X9: [getLoggedTamperCommits] returns, without changing anything, a set
    without duplicates of seven-character lower-case hexadecimal strings: a
    hash is in it exactly when some record of the store decrypts under the
    password, parses, has a command with the marker of a tamper warning in
    it, and the expression of the script captures this hash in that
    command.  Records that cannot be read are skipped, and an absent or
    unparseable file gives the empty set. *)
Theorem logged_commits_are_short_hashes (CONFIG : Config) (w : World) :
  exists already,
    getLoggedTamperCommits CONFIG w = (Continue already, w)
    /\ NoDup already
    /\ (forall h, In h already ->
          String.length h = 7%nat /\ all_chars is_hex_lower h = true)
    /\ (forall h, In h already
          <-> exists log decrypted command,
                In log (store_logs (log_file w))
                /\ read_record CONFIG log = Some decrypted
                /\ JSON.get decrypted "command" = Some (JSON.Str command)
                /\ includes command "[TAMPERING DETECTED]" = true
                /\ match_commit command = Some h)
    /\ (log_file w = Absent \/ log_file w = Unparseable -> already = []).
Proof.
  exists (logged_set CONFIG (store_logs (log_file w)) []).
  split; [apply getLoggedTamperCommits_spec|].
  split; [apply logged_set_NoDup; constructor|].
  assert (Hin : forall h, In h (logged_set CONFIG (store_logs (log_file w)) [])
                  <-> exists log, In log (store_logs (log_file w))
                                  /\ logged_commit CONFIG log = Some h).
  { intros h. rewrite <- Set_has_In, logged_set_has. split.
    - intros [H | H]; [discriminate H | exact H].
    - intros H. now right. }
  split; [|split].
  - intros h Hh. apply Hin in Hh as (log & _ & Hl).
    apply logged_commit_spec in Hl as (d & c & _ & _ & _ & Hm).
    exact (match_commit_some c h Hm).
  - intros h. rewrite Hin. split.
    + intros (log & Hl & Hc). apply logged_commit_spec in Hc as (d & c & Hc).
      exists log, d, c. split; [exact Hl | exact Hc].
    + intros (log & d & c & Hl & Hc). exists log. split; [exact Hl|].
      apply logged_commit_spec. exists d, c. exact Hc.
  - intros [-> | ->]; reflexivity.
Qed.

(** X10: the already-reported set does not tell a tamper warning from an
    ordinary entry: the entry of a command that contains the marker and
    [commit ] with seven hexadecimal characters counts as a report of that
    hash, and while a record with it is in the store, a scan that finds
    only commits with that short hash reports nothing. *)
Theorem marker_in_command_counts_as_report (CONFIG : Config) (env : Env) (command h : string)
  (w : World)
  (Hmarker : includes command "[TAMPERING DETECTED]" = true)
  (Hmatch : match_commit command = Some h) :
  exists blob w',
    createLogEntry CONFIG env command w = (Continue blob, w')
    /\ (forall i, logged_commit CONFIG {| id := i; encrypted := blob |} = Some h)
    /\ forall (env2 : Env) (w2 : World) (i : Z),
         repo_dir w2 = true ->
         In {| id := i; encrypted := blob |} (store_logs (log_file w2)) ->
         (forall found info, fst (checkForTampering env2 w2) = Continue found ->
            In info found -> short_hash info = h) ->
         report_tampering CONFIG env2 w2 = (Continue tt, w2).
Proof.
  eexists _, _. split; [apply createLogEntry_spec|].
  assert (Hlogged : forall i,
            logged_commit CONFIG
              {| id := i;
                 encrypted :=
                   encrypt_with CONFIG
                     (NodeCrypto.randomBytes (entropy env) (random_pos w) 16)
                     (NodeCrypto.randomBytes (entropy env) (random_pos w + 16) 16)
                     (JSON.stringify
                        (entry_value (command_entry env (clock env (clock_pos w)) command))) |}
            = Some h).
  { intros i. apply logged_commit_spec.
    exists (entry_value (command_entry env (clock env (clock_pos w)) command)), command.
    split; [apply read_record_entry; [apply randomBytes_length .. | now left]|].
    split; [apply entry_value_command|]. split; assumption. }
  split; [exact Hlogged|].
  intros env2 w2 i Hdir Hin Hfound.
  rewrite (report_tampering_unfold CONFIG env2 w2 Hdir).
  destruct (0 <? length (tampered env2 w2))%nat; [|reflexivity].
  apply report_loop_skips. intros info Hinfo.
  rewrite (Hfound (tampered env2 w2) info); [| now rewrite checkForTampering_spec | exact Hinfo].
  apply logged_set_has. right. eexists. split; [exact Hin | apply Hlogged].
Qed.

Lemma marker_in_command_counts_as_report_witness :
  includes "echo [TAMPERING DETECTED] commit 3f2a9c1" "[TAMPERING DETECTED]" = true
  /\ match_commit "echo [TAMPERING DETECTED] commit 3f2a9c1" = Some "3f2a9c1"
  /\ exists blob w',
       createLogEntry (sample_config "secret") (sample_env "y" true true)
         "echo [TAMPERING DETECTED] commit 3f2a9c1" sample_world = (Continue blob, w')
       /\ logged_commit (sample_config "secret") {| id := 1; encrypted := blob |} = Some "3f2a9c1".
Proof.
  assert (Hmarker : includes "echo [TAMPERING DETECTED] commit 3f2a9c1" "[TAMPERING DETECTED]"
                    = true) by reflexivity.
  assert (Hmatch : match_commit "echo [TAMPERING DETECTED] commit 3f2a9c1" = Some "3f2a9c1")
    by reflexivity.
  split; [exact Hmarker|]. split; [exact Hmatch|].
  destruct (marker_in_command_counts_as_report (sample_config "secret")
              (sample_env "y" true true) _ _ sample_world Hmarker Hmatch)
    as (blob & w' & E & Hl & _).
  exists blob, w'. split; [exact E | exact (Hl 1%Z)].
Defined.
(** * Consent, arguments and the clone *)

(** X11: without a command the process exits with status 1 and touches
    nothing, not even the prompt; when the answer is not affirmative it
    exits with status 0 and all it did is ask: no file is written, no
    entropy or clock reading is consumed, git is not called. *)
Theorem unconfirmed_invocation_changes_nothing (CONFIG : Config) (env : Env) (w : World) :
  (argv env = [] -> main CONFIG env w = (Exit 1, w))
  /\ (argv env <> [] -> affirmative env = false ->
      main CONFIG env w
      = (Exit 0,
         {| repo_dir := repo_dir w; git_dir := git_dir w; log_file := log_file w;
            index_html := index_html w; nojekyll := nojekyll w;
            random_pos := random_pos w; clock_pos := clock_pos w;
            trace := (trace w ++ [Asked (String.concat " " (argv env))])%list |})).
Proof.
  split.
  - intros Hargs. unfold main. now rewrite Hargs.
  - intros Hargs Hno. unfold main.
    destruct (argv env) as [|a args]; [contradiction|].
    change (length (a :: args) =? 0)%nat with false. cbv iota.
    unfold bind at 1, confirmCommand at 1. unfold bind at 1, emit at 1, ret at 1.
    fold (affirmative env). rewrite Hno. reflexivity.
Qed.







(** X13: when the working copy is missing and the clone succeeds but
    setting the git identity fails, [pullFromGitHub] reports failure
    although the clone is in place: the log file is the cloned one, and
    from then on [pullFromGitHub] pulls instead of cloning, so the identity
    is not set again. *)
Theorem clone_survives_config_failure (env : Env) (w : World) (f : LogFile)
  (Hdir : repo_dir w = true) (Hgit : git_dir w = false)
  (Hclone : git_clone env = Some f) (Hconfig : git_addConfig env = false) :
  exists w',
    pullFromGitHub env w = (Continue false, w')
    /\ git_dir w' = true /\ log_file w' = f
    /\ trace w' = (trace w ++ [Pulled false])%list
    /\ forall env2 : Env,
         exists w'',
           pullFromGitHub env2 w'
           = (Continue (fst (git_pull env2 f)), w'')
           /\ log_file w'' = snd (git_pull env2 f).
Proof.
  unfold pullFromGitHub at 1. unfold bind at 1. rewrite (simpleGit_spec w Hdir).
  rewrite Hgit, Hclone, Hconfig. cbn [negb].
  eexists. split; [reflexivity|]. split; [reflexivity|]. split; [reflexivity|].
  split; [reflexivity|].
  intros env2. unfold pullFromGitHub, bind, simpleGit.
  cbn [repo_dir git_dir log_file cloned emit snd fst negb].
  destruct (git_pull env2 f) as [ok f2]. eexists. split; reflexivity.
Qed.

Lemma clone_survives_config_failure_witness :
  exists env w w',
    git_dir w = false /\ git_addConfig env = false
    /\ pullFromGitHub env w = (Continue false, w') /\ git_dir w' = true.
Proof.
  pose (env := {| argv := ["apt"; "update"]; env_USER := Some "admin"; env_USERNAME := None;
                  os_hostname := "host"; process_cwd := "/root";
                  entropy := fun _ => zero; clock := fun _ => "2024-05-01T10:00:00.000Z";
                  answer := "y"; html_source := true;
                  git_clone := Some Absent; git_addConfig := false;
                  git_pull := fun f => (true, f);
                  git_log := None; git_show := fun _ => None;
                  git_add := true; git_status := Some false; git_commit := true;
                  git_push := true; sudo_exit := inl 0%Z |}).
  pose (w := {| repo_dir := true; git_dir := false; log_file := Absent; index_html := false;
                nojekyll := false; random_pos := 0; clock_pos := 0; trace := [] |}).
  destruct (clone_survives_config_failure env w Absent eq_refl eq_refl eq_refl eq_refl)
    as (w' & E & G & _).
  exists env, w, w'. split; [reflexivity|]. split; [reflexivity|]. split; [exact E | exact G].
Defined.
(** * The format of a blob *)

Lemma ctr_length E : forall data cb j, length (GCM.ctr E cb j data) = length data.
Proof.
  induction data as [|d data IH]; intros cb j; cbn [GCM.ctr length]; [reflexivity|].
  now rewrite IH.
Qed.

Lemma encode_bytes_length (b : Buffer) :
  length (Base64.encode_bytes b) = (4 * ((length b + 2) / 3))%nat.
Proof.
  induction b as [| x | x y | x y z r IH] using list_ind3.
  - reflexivity.
  - reflexivity.
  - reflexivity.
  - cbn [Base64.encode_bytes length]. rewrite IH.
    replace (S (S (S (length r))) + 2)%nat with (1 * 3 + (length r + 2))%nat by lia.
    rewrite Nat.div_add_l by discriminate. lia.
Qed.

Lemma string_of_list_ascii_length (l : list ascii) :
  String.length (string_of_list_ascii l) = length l.
Proof. induction l as [|c l IH]; cbn; [reflexivity | now rewrite IH]. Qed.

(** X14: [encrypt] always returns.  The blob is the base64 text of the
    16-byte salt, the 16-byte iv, the 16-byte tag and a ciphertext as long
    as the plaintext, in this order; salt and iv are the next 32 bytes of
    the entropy source, whose position advances by these 32 bytes; the
    text has four characters for every three bytes of this frame, rounded
    up; the log file, the trace and the clock are left as they were. *)
Theorem encrypt_blob_format (CONFIG : Config) (env : Env) (text : string) (w : World) :
  exists blob w' authTag encrypted,
    encrypt CONFIG env text w = (Continue blob, w')
    /\ Base64.decode blob
       = (NodeCrypto.randomBytes (entropy env) (random_pos w) 16
            ++ NodeCrypto.randomBytes (entropy env) (random_pos w + 16) 16
            ++ authTag ++ encrypted)%list
    /\ length authTag = 16%nat
    /\ length encrypted = String.length text
    /\ String.length blob = (4 * ((48 + String.length text + 2) / 3))%nat
    /\ random_pos w' = (random_pos w + 32)%nat
    /\ log_file w' = log_file w /\ trace w' = trace w /\ clock_pos w' = clock_pos w.
Proof.
  set (salt := NodeCrypto.randomBytes (entropy env) (random_pos w) 16).
  set (iv := NodeCrypto.randomBytes (entropy env) (random_pos w + 16) 16).
  set (key := derived_key CONFIG salt).
  exists (encrypt_with CONFIG salt iv text).
  eexists.
  exists (snd (NodeCrypto.cipher_aes_256_gcm key iv (list_ascii_of_string text))),
         (fst (NodeCrypto.cipher_aes_256_gcm key iv (list_ascii_of_string text))).
  split; [reflexivity|].
  assert (Hct : length (fst (NodeCrypto.cipher_aes_256_gcm key iv (list_ascii_of_string text)))
                = String.length text).
  { unfold NodeCrypto.cipher_aes_256_gcm, GCM.crypt. cbn [fst].
    now rewrite ctr_length, list_ascii_of_string_length. }
  assert (Htag : length (snd (NodeCrypto.cipher_aes_256_gcm key iv (list_ascii_of_string text)))
                 = 16%nat) by apply auth_tag_length.
  assert (Hframe : encrypt_with CONFIG salt iv text
                   = Base64.encode
                       (salt ++ iv
                          ++ snd (NodeCrypto.cipher_aes_256_gcm key iv (list_ascii_of_string text))
                          ++ fst (NodeCrypto.cipher_aes_256_gcm key iv (list_ascii_of_string text)))%list).
  { with_strategy transparent [encrypt_with] unfold encrypt_with. fold key.
    now destruct (NodeCrypto.cipher_aes_256_gcm key iv (list_ascii_of_string text)). }
  split; [rewrite Hframe; apply base64_decode_encode|].
  split; [exact Htag|]. split; [exact Hct|]. split.
  - rewrite Hframe. unfold Base64.encode.
    rewrite string_of_list_ascii_length, encode_bytes_length, !length_app, Htag, Hct.
    subst salt iv. rewrite !randomBytes_length.
    match goal with
    | |- (4 * (?a / 3) = 4 * (?b / 3))%nat => replace a with b by lia
    end.
    reflexivity.
  - cbn [random_pos log_file trace clock_pos]. repeat split. lia.
Qed.
(** * Edges of the store and of the log directory *)

(** X15: [saveToRepo] numbers a record by the length of the document, not
    by the ids in it: when the document already holds a record with the id
    that follows its length, as after a record was removed from it, the
    new record repeats that id. *)
Theorem saveToRepo_repeats_id (blob : string) (w : World) (logs : list EncryptedRecord)
  (held : EncryptedRecord)
  (Hfile : log_file w = Document logs) (Hheld : In held logs)
  (Hid : id held = (Z.of_nat (length logs) + 1)%Z) :
  exists added,
    log_file (snd (saveToRepo blob w)) = Document (logs ++ [added])
    /\ encrypted added = blob
    /\ id added = id held
    /\ ~ NoDup (map id (logs ++ [added])).
Proof.
  unfold saveToRepo. cbn [snd log_file]. rewrite Hfile.
  eexists. split; [reflexivity|]. split; [reflexivity|]. split; [now rewrite Hid|].
  rewrite map_app. cbn [map id]. intros Hnd.
  apply NoDup_remove_2 in Hnd. rewrite app_nil_r in Hnd. apply Hnd.
  rewrite <- Hid. now apply in_map.
Qed.

Lemma saveToRepo_repeats_id_witness :
  exists added,
    log_file (snd (saveToRepo "blob"
                     (set_log_file (Document [{| id := 2; encrypted := "kept" |}]) sample_world)))
    = Document ([{| id := 2; encrypted := "kept" |}] ++ [added])
    /\ id added = 2%Z.
Proof.
  destruct (saveToRepo_repeats_id "blob"
              (set_log_file (Document [{| id := 2; encrypted := "kept" |}]) sample_world)
              [{| id := 2; encrypted := "kept" |}] {| id := 2; encrypted := "kept" |}
              eq_refl (or_introl eq_refl) eq_refl)
    as (added & L & _ & I & _).
  exists added. split; [exact L | exact I].
Defined.

(** X16: the script does not create its log directory: when the directory
    is missing, a confirmed invocation ends in [pullFromGitHub] with the
    error simple-git throws, before the [mkdirSync] of [saveToRepo] is
    reached; nothing is cloned, logged or executed, the directory is still
    missing afterwards, and so the next invocation ends the same way. *)
Theorem missing_directory_is_never_created (CONFIG : Config) (env : Env) (w : World)
  (Hargs : argv env <> []) (Hyes : affirmative env = true) (Hdir : repo_dir w = false) :
  exists error,
    main CONFIG env w
    = (Rejected error,
       {| repo_dir := false; git_dir := git_dir w; log_file := log_file w;
          index_html := index_html w; nojekyll := nojekyll w;
          random_pos := random_pos w; clock_pos := clock_pos w;
          trace := (trace w ++ [Asked (String.concat " " (argv env))])%list |})
    /\ forall (CONFIG2 : Config) (env2 : Env),
         argv env2 <> [] -> affirmative env2 = true ->
         exists error2, fst (main CONFIG2 env2 (snd (main CONFIG env w))) = Rejected error2.
Proof.
  assert (Hrun : forall (C : Config) (e : Env) (w0 : World),
            argv e <> [] -> affirmative e = true -> repo_dir w0 = false ->
            main C e w0
            = (Rejected "Cannot use simple-git on a directory that does not exist",
               {| repo_dir := false; git_dir := git_dir w0; log_file := log_file w0;
                  index_html := index_html w0; nojekyll := nojekyll w0;
                  random_pos := random_pos w0; clock_pos := clock_pos w0;
                  trace := (trace w0 ++ [Asked (String.concat " " (argv e))])%list |})).
  { intros C e w0 Ha Hy Hd. unfold main.
    destruct (argv e) as [|a args]; [contradiction|].
    change (length (a :: args) =? 0)%nat with false. cbv iota.
    unfold bind at 1, confirmCommand at 1. unfold bind at 1, emit at 1, ret at 1.
    fold (affirmative e). rewrite Hy. cbn [negb].
    unfold bind at 1, pullFromGitHub at 1. unfold bind at 1, simpleGit at 1.
    cbn [repo_dir]. rewrite Hd. reflexivity. }
  eexists. split; [exact (Hrun CONFIG env w Hargs Hyes Hdir)|].
  intros CONFIG2 env2 Hargs2 Hyes2. rewrite (Hrun CONFIG env w Hargs Hyes Hdir). cbn [snd].
  eexists. rewrite Hrun; [reflexivity | exact Hargs2 | exact Hyes2 | reflexivity].
Qed.

Lemma missing_directory_is_never_created_witness :
  exists error,
    fst (main (sample_config "secret") (sample_env "y" true true)
           {| repo_dir := false; git_dir := false; log_file := Absent; index_html := false;
              nojekyll := false; random_pos := 0; clock_pos := 0; trace := [] |})
    = Rejected error.
Proof.
  assert (Hargs : argv (sample_env "y" true true) <> []) by discriminate.
  destruct (missing_directory_is_never_created (sample_config "secret") (sample_env "y" true true)
              {| repo_dir := false; git_dir := false; log_file := Absent; index_html := false;
                 nojekyll := false; random_pos := 0; clock_pos := 0; trace := [] |}
              Hargs eq_refl eq_refl) as (error & E & _).
  exists error. now rewrite E.
Defined.
